(** * gitb: pull-request attribution in [repository.go]

    A shallow embedding of the parts of [repository.go] that parse the
    remote reference listing, match pull-request head references, drive
    the interactive selector and attribute blame lines to pull requests,
    together with the properties proved about them.

    Go strings are byte strings and are modelled by [string]; Go [int] is
    modelled by [Z]; the map types are [gmap string string].  A Go
    function that can return an error, panic or leave the process is
    modelled by a function into [result]. *)

From Stdlib Require Import ZArith Ascii String DecimalString.
From Stdlib Require DecimalPos.
From stdpp Require Import base option list sorting gmap strings.

Local Open Scope string_scope.

(** ** Outcomes of Go code *)

(** The error values of the program: those made by [errors.New] in this
    package, those returned by [os/exec] when a command fails, and those
    returned by the terminal runtime. *)
Inductive error : Type :=
  | ErrorsNew (msg : string)
  | ExecError (detail : string)
  | TeaError (detail : string).

(** How a call ends: a normal return, a returned error, a run-time panic
    or [os.Exit]. *)
Inductive result (A : Type) : Type :=
  | Ok (a : A)
  | Err (e : error)
  | Panic (reason : string)
  | Exit (code : Z).

Arguments Ok {A} a.
Arguments Err {A} e.
Arguments Panic {A} reason.
Arguments Exit {A} code.

(** Sequencing: the first error, panic or exit ends the computation.  The
    notation [x ← r; k] below is the one of this instance. *)
Global Instance result_bind : MBind result := fun A B k r =>
  match r with
  | Ok a => k a
  | Err e => Err e
  | Panic p => Panic p
  | Exit c => Exit c
  end.

Definition indexOutOfRange : string := "index out of range".

(** [a[i]] on a slice: a run-time panic when [i] is out of range. *)
Definition at_index {A : Type} (a : list A) (i : nat) : result A :=
  match a !! i with
  | Some x => Ok x
  | None => Panic indexOutOfRange
  end.

(** ** The functions of package [strings] that the program calls *)

Module Strings.

Definition newline : string := String "010"%char "".
Definition tab : string := String "009"%char "".

(** The slice expressions [s[:n]] and [s[n:]]. *)
Fixpoint slice_to (n : nat) (s : string) : string :=
  match n, s with
  | S n', String c s' => String c (slice_to n' s')
  | _, _ => ""
  end.

Fixpoint slice_from (n : nat) (s : string) : string :=
  match n, s with
  | S n', String _ s' => slice_from n' s'
  | _, _ => s
  end.

Definition HasPrefix (s pre : string) : bool := String.prefix pre s.

Definition HasSuffix (s suf : string) : bool :=
  (String.length suf <=? String.length s)%nat
  && String.eqb (slice_from (String.length s - String.length suf) s) suf.

Definition TrimPrefix (s pre : string) : string :=
  if HasPrefix s pre then slice_from (String.length pre) s else s.

Definition TrimSuffix (s suf : string) : string :=
  if HasSuffix s suf then slice_to (String.length s - String.length suf) s else s.

(** [strings.Index]: the position of the first occurrence of [sep], [None]
    for Go's [-1]. *)
Fixpoint Index (s sep : string) : option nat :=
  if String.prefix sep s then Some 0
  else match s with
       | "" => None
       | String _ s' => S <$> Index s' sep
       end.

(** The loop of [genSplit]: at most [n] more cuts at occurrences of a
    non-empty [sep]; the rest of the text is the last piece. *)
Fixpoint cuts (n : nat) (s sep : string) : list string :=
  match n with
  | O => [s]
  | S n' =>
      match Index s sep with
      | None => [s]
      | Some m => slice_to m s :: cuts n' (slice_from (m + String.length sep) s) sep
      end
  end.

(** [strings.SplitN(s, sep, n)] for a non-empty [sep]: no piece for
    [n = 0], all pieces for [n < 0], at most [n] pieces otherwise.  A text
    of length [k] has at most [k] occurrences of [sep], so [k] cuts give
    all pieces. *)
Definition SplitN (s sep : string) (n : Z) : list string :=
  if (n =? 0)%Z then []
  else if (n <? 0)%Z then cuts (String.length s) s sep
  else cuts (Z.to_nat n - 1) s sep.

Definition Split (s sep : string) : list string := SplitN s sep (-1).

End Strings.

Import Strings.

(** ** Remote reference index *)

Abbreviation RefToHash := (gmap string string).

(** The body of the [range remotes] loop of [toRefToHash]. *)
Definition toRefToHash_step (refToHash : RefToHash) (v : string) : result RefToHash :=
  let delimited := Split v tab in
  hash ← at_index delimited 0;
  ref ← at_index delimited 1;
  Ok (<[ref := hash]> refToHash).

Fixpoint toRefToHash_loop (remotes : list string) (refToHash : RefToHash)
  : result RefToHash :=
  match remotes with
  | [] => Ok refToHash
  | v :: rest =>
      refToHash' ← toRefToHash_step refToHash v;
      toRefToHash_loop rest refToHash'
  end.

Definition toRefToHash (b : string) : result RefToHash :=
  let remotes := Split (TrimSuffix b newline) newline in
  toRefToHash_loop remotes ∅.

(** [repository.LsRemote]: [cmdOutput] is what [cmd.Output()] of
    [git ls-remote -q] returns, the bytes written or the error. *)
Definition repository_LsRemote (cmdOutput : string + error) : result RefToHash :=
  match cmdOutput with
  | inr err => Err err
  | inl out => toRefToHash out
  end.

(** ** Sorting the candidates *)

Module Sort.

(** [sort.StringSlice.Less]: Go compares strings byte by byte. *)
Definition StringSlice_Less (x y : string) : bool := String.ltb x y.

(** [sort.Reverse]: [Less(i, j)] of the reversed order is [Less(j, i)]. *)
Definition Reverse (less : string -> string -> bool) (x y : string) : bool :=
  less y x.

(** What [sort.Sort] establishes: no element is less than one before it. *)
Definition ordered (less : string -> string -> bool) (x y : string) : Prop :=
  less y x = false.

Global Instance ordered_dec less x y : Decision (ordered less x y).
Proof. unfold ordered. apply _. Defined.

(** [sort.Sort] as a function of the slice.  The library's algorithm is
    not stable; for the string orders elements that compare equal are
    equal, so the sorted slice is unique (lemma [Sort_unique]). *)
Definition Sort (less : string -> string -> bool) (data : list string)
  : list string :=
  merge_sort (ordered less) data.

(** The order [sort.Sort] establishes for the reversed string order:
    an element is never below its successors. *)
Abbreviation descending := (ordered (Reverse StringSlice_Less)).

End Sort.

(** ** PR reference matcher *)

Definition refPrefix : string := "refs/".
Definition refPullRequestPrefix : string := refPrefix ++ "pull/".
Definition refPullRequestSuffix : string := "/head".

Definition isPRRef (ref : string) : bool :=
  HasPrefix ref refPullRequestPrefix && HasSuffix ref refPullRequestSuffix.

Definition extractPRID (ref : string) : string :=
  let prID := TrimPrefix ref refPullRequestPrefix in
  TrimSuffix prID refPullRequestSuffix.

(** The body of the [range refToHash] loop of [findPullRequestIDFromRemote]:
    the two [continue]s and the [append]. *)
Definition collect_step (targetHash : string) (prIDs : list string)
    (entry : string * string) : list string :=
  let '(ref, hash) := entry in
  if negb (isPRRef ref) then prIDs
  else if negb (String.eqb hash targetHash) then prIDs
  else prIDs ++ [extractPRID ref].

Definition collectPRIDs (targetHash : string) (entries : list (string * string))
  : list string :=
  foldl (collect_step targetHash) [] entries.

(** The entries the loop keeps. *)
Definition matches_target (targetHash : string) (entry : string * string) : Prop :=
  isPRRef entry.1 = true /\ entry.2 = targetHash.

Global Instance matches_target_dec h e : Decision (matches_target h e).
Proof. unfold matches_target. apply _. Defined.

(** ** Disambiguation selector *)

Record prSelector : Type := mkSelector {
  choices : list string;
  cursor : Z;
  selected : Z;
  sel_repoName : string
}.

(** [tea.Msg] is an open interface; [Update] only looks at key messages and
    at the name [msg.String()] of the key. *)
Inductive Msg : Type :=
  | KeyMsg (key : string)
  | OtherMsg.

(** The commands [Update] returns: [tea.Quit], or [nil] as [None]. *)
Inductive Cmd : Type := Quit.

Definition key_in (key : string) (names : list string) : bool :=
  existsb (String.eqb key) names.

Definition with_cursor (p : prSelector) (c : Z) : prSelector :=
  mkSelector (choices p) c (selected p) (sel_repoName p).

Definition with_selected (p : prSelector) (i : Z) : prSelector :=
  mkSelector (choices p) (cursor p) i (sel_repoName p).

(** [prSelector.Update].  The increment is guarded by
    [cursor < len(choices)-1] and the decrement by [cursor > 0], so neither
    can leave the range of [int]. *)
Definition Update (p : prSelector) (msg : Msg) : prSelector * option Cmd :=
  match msg with
  | KeyMsg key =>
      if key_in key ["q"; "esc"; "ctrl+c"] then (p, Some Quit)
      else if key_in key ["j"; "down"] then
        (if (cursor p <? Z.of_nat (length (choices p)) - 1)%Z
         then with_cursor p (cursor p + 1) else p, None)
      else if key_in key ["k"; "up"] then
        (if (cursor p >? 0)%Z then with_cursor p (cursor p - 1) else p, None)
      else if key_in key ["enter"] then
        (with_selected p (cursor p), Some Quit)
      else (p, None)
  | OtherMsg => (p, None)
  end.

(** The cursor points at a choice. *)
Definition in_bounds (p : prSelector) : Prop :=
  (0 <= cursor p <= Z.of_nat (length (choices p)) - 1)%Z.

(** The selector after a sequence of messages, whatever commands [Update]
    answered on the way. *)
Definition run_updates (p : prSelector) (msgs : list Msg) : prSelector :=
  foldl (fun p msg => (Update p msg).1) p msgs.

(** The [range p.choices] loop of [View], from index [i] on. *)
Fixpoint View_rows (p : prSelector) (i : Z) (cs : list string) (s : string) : string :=
  match cs with
  | [] => s
  | choice :: rest =>
      let mark := if (cursor p =? i)%Z then ">" else " " in
      View_rows p (i + 1) rest
        (s ++ mark ++ " " ++ sel_repoName p ++ " #" ++ choice ++ newline)
  end.

Definition View (p : prSelector) : string :=
  let s := "Multiple pull requests found. Select one:" ++ newline ++ newline in
  let s := View_rows p 0 (choices p) s in
  s ++ newline ++ "Press 'q' to quit, 'enter' to select." ++ newline.

(** *** The terminal runtime

    [tea.NewProgram(v).Run()] belongs to the bubbletea library.  Its event
    loop is modelled on the messages the terminal delivers: the first view
    is rendered, then each message is given to [Update] and the new view is
    rendered; the loop returns the model when [Update] answers [tea.Quit].
    When the terminal delivers no further message the runtime ends with its
    own error, which is what [Run] then returns. *)
Record Terminal : Type := mkTerminal {
  delivered : list Msg;
  failure : string
}.

(** What the user can observe of the interactive step. *)
Inductive event : Type :=
  | EvNewProgram (v : prSelector)
  | EvRender (frame : string)
  | EvRead (msg : Msg).

Fixpoint eventLoop (p : prSelector) (msgs : list Msg) (closed : string)
  : list event * result prSelector :=
  match msgs with
  | [] => ([], Err (TeaError closed))
  | msg :: rest =>
      let '(p', cmd) := Update p msg in
      match cmd with
      | Some Quit => ([EvRead msg; EvRender (View p')], Ok p')
      | None =>
          let '(tr, r) := eventLoop p' rest closed in
          (EvRead msg :: EvRender (View p') :: tr, r)
      end
  end.

Definition Run (v : prSelector) (tty : Terminal) : list event * result prSelector :=
  let '(tr, r) := eventLoop v (delivered tty) (failure tty) in
  (EvNewProgram v :: EvRender (View v) :: tr, r).

(** [a[i]] for an [int] index. *)
Definition at_int (a : list string) (i : Z) : result string :=
  if (i <? 0)%Z then Panic indexOutOfRange else at_index a (Z.to_nat i).

Record BacklogRepository : Type := mkBacklogRepository {
  repo_HeadName : string;
  repo_LsRemote : result RefToHash;
  projectKey : string;
  repoName : string
}.

(** [selectPR], with the events of the interactive step it performs. *)
Definition selectPR (b : BacklogRepository) (prIDs : list string) (tty : Terminal)
  : list event * result string :=
  if (length prIDs =? 1)%nat then ([], at_index prIDs 0)
  else
    let v := mkSelector prIDs 0 (-1) (projectKey b ++ "/" ++ repoName b) in
    let '(tr, r) := Run v tty in
    (tr, match r with
         | Ok final =>
             let idx := selected final in
             if (idx =? -1)%Z then Exit 0 else at_int prIDs idx
         | Err e => Err e
         | Panic reason => Panic reason
         | Exit c => Exit c
         end).

Definition errNoBranch : error :=
  ErrorsNew "not found a current branch in remote".
Definition errNoPullRequest : error :=
  ErrorsNew "not found a pull request related to current branch".

Section Matcher.

(** Go does not specify the order in which [range] visits a map: the
    order is any enumeration of the entries. *)
Variable rangeOrder : RefToHash -> list (string * string).
Hypothesis rangeOrder_entries : forall m, rangeOrder m ≡ₚ map_to_list m.

(** The candidates as [findPullRequestIDFromRemote] hands them to
    [selectPR]: collected in range order, then sorted. *)
Definition candidates (refToHash : RefToHash) (targetHash : string)
  : list string :=
  Sort.Sort (Sort.Reverse Sort.StringSlice_Less)
    (collectPRIDs targetHash (rangeOrder refToHash)).

Definition findPullRequestIDFromRemote (b : BacklogRepository) (ref : string)
    (tty : Terminal) : list event * result string :=
  match repo_LsRemote b with
  | Ok refToHash =>
      match refToHash !! ref with
      | None => ([], Err errNoBranch)
      | Some targetHash =>
          let prIDs := collectPRIDs targetHash (rangeOrder refToHash) in
          if (length prIDs =? 0)%nat then ([], Err errNoPullRequest)
          else
            selectPR b (Sort.Sort (Sort.Reverse Sort.StringSlice_Less) prIDs) tty
      end
  | Err e => ([], Err e)
  | Panic reason => ([], Panic reason)
  | Exit c => ([], Exit c)
  end.

End Matcher.

(** ** Blame attribution *)

(** *** Library functions used by [lookup] and [BlamePR] *)

Module Strconv.

(** Go's [int] on the 64-bit platforms the tool is built for. *)
Definition maxInt : Z := 2 ^ 63 - 1.
Definition minInt : Z := - 2 ^ 63.

Definition digit (c : ascii) : option Z :=
  if (("0" <=? c) && (c <=? "9"))%char
  then Some (Z.of_N (N_of_ascii c) - 48)%Z else None.

Fixpoint digits (acc : Z) (s : string) : option Z :=
  match s with
  | "" => Some acc
  | String c s' =>
      match digit c with
      | Some d => digits (10 * acc + d)%Z s'
      | None => None
      end
  end.

(** [strconv.Atoi]: an optional sign, then one or more decimal digits;
    [None] for a syntax or range error. *)
Definition Atoi (s : string) : option Z :=
  let '(neg, body) :=
    match s with
    | String "+" r => (false, r)
    | String "-" r => (true, r)
    | _ => (false, s)
    end in
  match body with
  | "" => None
  | _ =>
      match digits 0 body with
      | Some v =>
          let n := if neg : bool then (- v)%Z else v in
          if ((minInt <=? n) && (n <=? maxInt))%Z then Some n else None
      | None => None
      end
  end.

(** [strconv.Itoa], and the verb [%d] of package [fmt]. *)
Definition Itoa (n : Z) : string := NilZero.string_of_int (Z.to_int n).

End Strconv.

Module Regexp.

Definition hex (c : ascii) : bool :=
  ((("a" <=? c) && (c <=? "f")) || (("0" <=? c) && (c <=? "9")))%char.

Definition decimal (c : ascii) : bool := (("0" <=? c) && (c <=? "9"))%char.

(** [\S]: any character but tab, line feed, form feed, carriage return
    and space. *)
Definition nonspace (c : ascii) : bool :=
  negb (existsb (Ascii.eqb c) ["009"; "010"; "012"; "013"; " "]%char).

(** A literal, then the rest of the pattern [k]. *)
Definition lit {A : Type} (l : string) (k : string -> option A) (s : string)
  : option A :=
  if String.prefix l s then k (slice_from (String.length l) s) else None.

(** [cls+], greedy, then the rest of the pattern [k], which receives the
    text matched by [cls+] and the text that follows; a shorter repetition
    is tried when the rest fails on a longer one. *)
Fixpoint plus {A : Type} (cls : ascii -> bool) (k : string -> string -> option A)
    (matched s : string) : option A :=
  match s with
  | "" => None
  | String c s' =>
      if cls c then
        let matched' := matched ++ String c "" in
        match plus cls k matched' s' with
        | Some r => Some r
        | None => k matched' s'
        end
      else None
  end.

(** [FindStringSubmatch] for the pattern of [lookup],
    [^[a-f0-9]+ Merge pull request #([0-9]+) \S+ into \S+]:
    the whole match and the group, or no slice ([nil]) as [[]]. *)
Definition mergeSummary_FindStringSubmatch (s : string) : list string :=
  let found :=
    plus hex (fun _ =>
      lit " Merge pull request #" (
        plus decimal (fun id =>
          lit " " (
            plus nonspace (fun _ =>
              lit " into " (
                plus nonspace (fun _ rest => Some (id, rest)) ""))
            "")) "")) "" s in
  match found with
  | Some (id, rest) =>
      [slice_to (String.length s - String.length rest) s; id]
  | None => []
  end.

End Regexp.

(** One call [fmt.Printf(format, label, src)] of [BlamePR]. *)
Inductive output : Type :=
  | Printf (format label src : string).

Record blame : Type := mkBlame {
  cached : gmap string string;   (* the map [cached] *)
  printed : list output;         (* what was written to standard output *)
  queried : list string          (* the arguments of the calls of [lookup] *)
}.

Definition blame_init : blame := mkBlame ∅ [] [].

(** The call of [Printf] for one line, given the map [cached]: the padding
    is the larger of [len(commit)] and [len(cached[commit])], and
    [cached[commit]] reads the empty string for a missing key. *)
Definition blame_line (cached : gmap string string) (commit src : string) : output :=
  let label := default "" (cached !! commit) in
  let padding := String.length commit in
  let padding :=
    if (padding <? String.length label)%nat then String.length label else padding in
  let format := "%-" ++ Strconv.Itoa (Z.of_nat padding) ++ "s %s" ++ newline in
  Printf format label src.

Section Blame.

(** What [cmd.Output()] of [git show --oneline commit] returns. *)
Variable gitShow : string -> string + error.

(** [lookup].  On a failed command Go returns [(commit, err)]; the caller
    only looks at [err]. *)
Definition lookup (commit : string) : result string :=
  match gitShow commit with
  | inr err => Err err
  | inl out =>
      let matches := Regexp.mergeSummary_FindStringSubmatch out in
      if (length matches <? 1)%nat then Ok commit
      else
        m1 ← at_index matches 1;
        match Strconv.Atoi m1 with
        | None => Ok commit
        | Some id => Ok ("PR #" ++ Strconv.Itoa id)
        end
  end.

(** The [if _, ok := cached[commit]; !ok] statement. *)
Definition BlamePR_fill (st : blame) (commit : string) : blame * result unit :=
  match cached st !! commit with
  | Some _ => (st, Ok ())
  | None =>
      let st' := mkBlame (cached st) (printed st) (queried st ++ [commit]) in
      match lookup commit with
      | Ok pr => (mkBlame (<[commit := pr]> (cached st')) (printed st') (queried st'), Ok ())
      | Err e => (st', Err e)
      | Panic reason => (st', Panic reason)
      | Exit c => (st', Exit c)
      end
  end.

(** The padding, the format and the [Printf] of one line. *)
Definition BlamePR_print (st : blame) (commit src : string) : blame :=
  mkBlame (cached st) (printed st ++ [blame_line (cached st) commit src])
    (queried st).

(** The body of the [for scanner.Scan()] loop on the line [text]. *)
Definition BlamePR_step (st : blame) (text : string) : blame * result unit :=
  let commitAndSrc := SplitN text " " 2 in
  match at_index commitAndSrc 0, at_index commitAndSrc 1 with
  | Ok commit, Ok src =>
      match BlamePR_fill st commit with
      | (st', Ok _) => (BlamePR_print st' commit src, Ok ())
      | (st', r) => (st', r)
      end
  | _, _ => (st, Panic indexOutOfRange)
  end.

(** The loop over the lines the scanner yields; [Ok ()] is the final
    [return err] with the [nil] of [cmd.Start()]. *)
Fixpoint BlamePR_loop (lines : list string) (st : blame) : blame * result unit :=
  match lines with
  | [] => (st, Ok ())
  | text :: rest =>
      match BlamePR_step st text with
      | (st', Ok _) => BlamePR_loop rest st'
      | (st', r) => (st', r)
      end
  end.

(** [BlamePR]: [gitBlame] is the child process, either the error of
    [StdoutPipe] or [Start], or the lines read from its output. *)
Definition BlamePR (gitBlame : list string -> list string + error)
    (argv : list string) : blame * result unit :=
  match gitBlame ("blame" :: "--first-parent" :: argv) with
  | inr err => (blame_init, Err err)
  | inl lines => BlamePR_loop lines blame_init
  end.

End Blame.

(** The two parts [commit] and [src] of a line, when it has both. *)
Definition parse_line (text : string) : option (string * string) :=
  match SplitN text " " 2 with
  | commit :: src :: _ => Some (commit, src)
  | _ => None
  end.

Definition label_of (o : output) : string :=
  match o with Printf _ label _ => label end.

(** Between two lines of a run, [lookup] was called once for each key of
    [cached] and for nothing else. *)
Definition live (st : blame) : Prop :=
  NoDup (queried st) /\ forall c, c ∈ queried st <-> is_Some (cached st !! c).

(** The output [o] is the one of the line [text] under the labels of
    [cache]. *)
Definition shows (cache : gmap string string) (text : string) (o : output) : Prop :=
  exists commit src label,
    parse_line text = Some (commit, src)
    /\ cache !! commit = Some label
    /\ o = blame_line cache commit src
    /\ label_of o = label.

(** *** Sample commit queries, used to run the model *)

Definition show_deadbeef (commit : string) : string + error :=
  if String.eqb commit "deadbeef" then inl "deadbeef Fix the parser"
  else inr (ExecError "exit status 128").

Definition show_sample (commit : string) : string + error :=
  if String.eqb commit "1a2b3c" then inl "1a2b3c Fix the parser"
  else if String.eqb commit "4d5e6f"
       then inl "4d5e6f Merge pull request #42 topic into master"
       else inr (ExecError "exit status 128").

(** ** Repository coordinates, statuses and the browser commands *)

(** [strings.Join]. *)
Fixpoint Join (elems : list string) (sep : string) : string :=
  match elems with
  | [] => ""
  | [e] => e
  | e :: rest => e ++ sep ++ Join rest sep
  end.

Definition sliceOutOfRange : string := "slice bounds out of range".

(** [a[i:]] on a slice, for an [int] bound: a run-time panic when [i] is
    negative or beyond the length. *)
Definition slice_tail {A : Type} (a : list A) (i : Z) : result (list A) :=
  if ((i <? 0) || (Z.of_nat (length a) <? i))%Z then Panic sliceOutOfRange
  else Ok (drop (Z.to_nat i) a).

Definition extractSpaceKeyAndDomain (host : string) : result (string * string) :=
  let delimitedHost := Split host "." in
  spaceKey ← at_index delimitedHost 0;
  last2 ← slice_tail delimitedHost (Z.of_nat (length delimitedHost) - 2);
  Ok (spaceKey, Join last2 ".").

Definition extractProjectKeyAndRepoName (path : string) : result (string * string) :=
  let epPath := TrimPrefix path "/git" in
  let delimitedPath := Split epPath "/" in
  projectKey ← at_index delimitedPath 1;
  name ← at_index delimitedPath 2;
  Ok (projectKey, TrimSuffix name ".git").

Inductive PRStatus : Type :=
  | PRStatusAll | PRStatusOpen | PRStatusClosed | PRStatusMerged.

Definition PRStatus_Int (p : PRStatus) : Z :=
  match p with
  | PRStatusAll => 0 | PRStatusOpen => 1 | PRStatusClosed => 2 | PRStatusMerged => 3
  end.

Inductive IssueStatus : Type :=
  | IssueStatusAll | IssueStatusOpen | IssueStatusInProgress
  | IssueStatusResolved | IssueStatusClosed | IssueStatusNotClosed.

Definition IssueStatus_Int (p : IssueStatus) : Z :=
  match p with
  | IssueStatusAll => 0 | IssueStatusOpen => 1 | IssueStatusInProgress => 2
  | IssueStatusResolved => 3 | IssueStatusClosed => 4 | IssueStatusNotClosed => 5
  end.

Global Instance PRStatus_eq_dec : EqDecision PRStatus.
Proof. solve_decision. Defined.

Global Instance IssueStatus_eq_dec : EqDecision IssueStatus.
Proof. solve_decision. Defined.

(** The verb [%v] of package [fmt] on a slice of strings. *)
Definition fmt_strings (specs : list string) : string :=
  "[" ++ Join specs " " ++ "]".

(** The map [strToStatus] of [PRStatusFromString], after its four
    assignments. *)
Definition prStrToStatus : gmap string PRStatus :=
  <["merged" := PRStatusMerged]> (<["closed" := PRStatusClosed]>
    (<["open" := PRStatusOpen]> (<["all" := PRStatusAll]> ∅))).

Definition issueStrToStatus : gmap string IssueStatus :=
  <["not_closed" := IssueStatusNotClosed]> (<["closed" := IssueStatusClosed]>
    (<["resolved" := IssueStatusResolved]> (<["in_progress" := IssueStatusInProgress]>
      (<["open" := IssueStatusOpen]> (<["all" := IssueStatusAll]> ∅))))).

(** The [switch] of [OpenIssueList] that fills [statusIds]. *)
Definition issueStatusIds (s : IssueStatus) : list Z :=
  match s with
  | IssueStatusAll => []
  | IssueStatusNotClosed =>
      [IssueStatus_Int IssueStatusOpen; IssueStatus_Int IssueStatusInProgress;
       IssueStatus_Int IssueStatusResolved]
  | _ => [IssueStatus_Int s]
  end.

(** [MatchString] for the pattern [^\d+(-\d+)?$] of [OpenObject]. *)
Definition lineSpec_MatchString (line : string) : bool :=
  let eot (rest : string) : option unit :=
    match rest with "" => Some () | _ => None end in
  let found :=
    Regexp.plus Regexp.decimal (fun _ rest =>
      match Regexp.lit "-" (Regexp.plus Regexp.decimal (fun _ => eot) "") rest with
      | Some r => Some r
      | None => eot rest
      end) "" line in
  match found with Some _ => true | None => false end.

Section Browser.

(** Go visits the keys of a map in an unspecified order. *)
Variable rangeKeys : forall V : Type, gmap string V -> list string.
Hypothesis rangeKeys_keys : forall V (m : gmap string V), rangeKeys V m ≡ₚ (map_to_list m).*1.

(** The browser command of the [BacklogRepository]: the URL it is given,
    and the error it returns, if any. *)
Variable openBrowser : string -> option error.

(** The methods of the URL builder, which is not part of this file. *)
Variable PullRequestListURL : Z -> string.
Variable IssueListURL : list Z -> string.
Variable ObjectURL : string -> string -> bool -> string -> string.

(** [PRStatusFromString]: the status, which is the zero value for an
    unknown name, and the error. *)
Definition PRStatusFromString (s : string) : PRStatus * option error :=
  let strToStatus := prStrToStatus in
  match strToStatus !! s with
  | Some v => (v, None)
  | None =>
      let specs := rangeKeys _ strToStatus in
      (PRStatusAll,
       Some (ErrorsNew ("invalid pull request's. choose from " ++ fmt_strings specs)))
  end.

Definition IssueStatusFromString (s : string) : IssueStatus * option error :=
  let strToStatus := issueStrToStatus in
  match strToStatus !! s with
  | Some v => (v, None)
  | None =>
      let specs := rangeKeys _ strToStatus in
      (IssueStatusAll,
       Some (ErrorsNew ("invalid issue's status. choose from " ++ fmt_strings specs)))
  end.

(** The [Open...] methods return the error of the browser command, [None]
    for [nil]. *)
Definition OpenPullRequestList (status : string) : option error :=
  match PRStatusFromString status with
  | (_, Some err) => Some err
  | (s, None) => openBrowser (PullRequestListURL (PRStatus_Int s))
  end.

Definition OpenIssueList (state : string) : option error :=
  match IssueStatusFromString state with
  | (_, Some err) => Some err
  | (s, None) => openBrowser (IssueListURL (issueStatusIds s))
  end.

(** [OpenObject]: [root] is [b.repo.RootDirectory()] and [head] is
    [b.repo.HeadShortName()]. *)
Definition OpenObject (root head absPath : string) (isDirectory : bool)
    (line : string) : option error :=
  if negb (HasPrefix absPath root) then
    Some (ErrorsNew ("path " ++ absPath ++ " is out of repository " ++ root))
  else
    let checked :=
      if negb (String.eqb line "") then
        if isDirectory then Some (ErrorsNew "line cannot be set for directory.")
        else if negb (lineSpec_MatchString line) then
          Some (ErrorsNew ("line can be number or 'from-to' format. :" ++ line))
        else None
      else None in
    match checked with
    | Some err => Some err
    | None =>
        let relPath := TrimPrefix (slice_from (String.length root) absPath) "/" in
        openBrowser (ObjectURL head relPath isDirectory line)
    end.

End Browser.

(** A non-empty text whose bytes are all of the class [cls]. *)
Definition all_in (cls : ascii -> bool) (s : string) : Prop :=
  s <> "" /\ forall c, c ∈ list_ascii_of_string s -> cls c = true.

(** The text is empty or begins with a byte outside the class [cls]. *)
Definition stops (cls : ascii -> bool) (rest : string) : Prop :=
  match rest with
  | "" => True
  | String c _ => cls c = false
  end.

(** ** Issue keys *)

Module IssueKey.

(** The class [[A-Z0-9]]. *)
Definition upperDigit (c : ascii) : bool :=
  ((("A" <=? c) && (c <=? "Z")) || (("0" <=? c) && (c <=? "9")))%char.

(** A literal inside a match: [matched] is the text matched so far. *)
Definition lit_m {A : Type} (l : string) (k : string -> string -> option A)
    (matched s : string) : option A :=
  if String.prefix l s then k (matched ++ l) (slice_from (String.length l) s)
  else None.

(** [(?:_[A-Z0-9]+)*], greedy: one more group is tried before the rest of
    the pattern [k].  [n] bounds the number of groups; every group takes at
    least two bytes, so the length of the text is a bound. *)
Fixpoint groups {A : Type} (n : nat) (k : string -> string -> option A)
    (matched s : string) : option A :=
  match n with
  | O => k matched s
  | S n' =>
      match lit_m "_" (Regexp.plus upperDigit (groups n' k)) matched s with
      | Some r => Some r
      | None => k matched s
      end
  end.

(** The pattern [[A-Z0-9]+(?:_[A-Z0-9]+)*-[0-9]+] at the start of [s]: the
    text it matches. *)
Definition match_at (s : string) : option string :=
  Regexp.plus upperDigit
    (groups (String.length s)
       (lit_m "-" (Regexp.plus Regexp.decimal (fun matched _ => Some matched))))
    "" s.

(** The leftmost match in [s]. *)
Fixpoint find (s : string) : option string :=
  match match_at s with
  | Some key => Some key
  | None =>
      match s with
      | "" => None
      | String _ s' => find s'
      end
  end.

(** [FindStringSubmatch] for the pattern of [extractIssueKey], whose one
    group spans the whole match. *)
Definition FindStringSubmatch (s : string) : list string :=
  match find s with
  | Some key => [key; key]
  | None => []
  end.

End IssueKey.

(** Further groups of an issue key, each led by an underscore. *)
Fixpoint underscored (ks : list string) : string :=
  match ks with
  | [] => ""
  | g :: ks' => "_" ++ g ++ underscored ks'
  end.

Definition extractIssueKey (s : string) : string :=
  let matches := IssueKey.FindStringSubmatch s in
  if (length matches <? 2)%nat then "" else nth 1 matches "".

(** [OpenIssue]: [head] is [b.repo.HeadShortName()], [IssueURL] the method
    of the URL builder and [openBrowser] the browser command. *)
Definition OpenIssue (openBrowser : string -> option error)
    (IssueURL : string -> string) (head : string) : option error :=
  let key := extractIssueKey head in
  if String.eqb key "" then
    Some (ErrorsNew "could not find issue key in current branch name")
  else openBrowser (IssueURL key).

(** A line specification as [OpenObject] accepts it: a number, or two
    numbers with a hyphen between them. *)
Definition line_form (line : string) : Prop :=
  exists a, all_in Regexp.decimal a
    /\ (line = a \/ exists b, all_in Regexp.decimal b /\ line = a ++ "-" ++ b).

(** The text [git ls-remote] writes for a list of (hash, reference) pairs:
    one line [hash<TAB>ref] each, every line ended by a line feed. *)
Definition lsRemoteText (pairs : list (string * string)) : string :=
  Join ((fun p => p.1 ++ tab ++ p.2) <$> pairs) newline ++ newline.

(** Hashes and reference names as [git ls-remote] writes them: without tab
    and without line feed. *)
Definition plain (s : string) : Prop :=
  Index s tab = None /\ Index s newline = None.

(** The table after the assignments [refToHash[ref] = hash] for the pairs in
    order. *)
Definition assignAll (pairs : list (string * string)) (m : RefToHash) : RefToHash :=
  foldl (fun m p => <[p.2 := p.1]> m) m pairs.

(** The selector is over the candidates [ids], its cursor points at one of
    them, and [selected] is either still -1 or the index of one of them. *)
Definition settled (ids : list string) (p : prSelector) : Prop :=
  choices p = ids /\ in_bounds p
  /\ (selected p = (-1)%Z \/ (0 <= selected p <= Z.of_nat (length ids) - 1)%Z).




(** * Properties *)

(** ** Facts about the string functions *)

Module StringFacts.

Lemma slice_to_app (a b : string) : slice_to (String.length a) (a ++ b) = a.
Proof. induction a as [|c a IH]; simpl; [by destruct b | by rewrite IH]. Qed.

Lemma slice_from_app (a b : string) : slice_from (String.length a) (a ++ b) = b.
Proof. induction a as [|c a IH]; simpl; [by destruct b | done]. Qed.

Lemma prefix_char (c : ascii) (s : string) :
  String.prefix (String c "") s = true <-> exists s', s = String c s'.
Proof.
  destruct s as [|c' s']; simpl.
  - split; [done | by intros [? ?]].
  - destruct (Ascii.ascii_dec c c') as [->|Hne].
    + split; [eauto | by destruct s'].
    + split; [done | intros [? [=]]; congruence].
Qed.

Lemma Index_unfold (s sep : string) :
  Index s sep =
    if String.prefix sep s then Some 0
    else match s with
         | "" => None
         | String _ s' => S <$> Index s' sep
         end.
Proof. by destruct s. Qed.

Lemma prefix_char_cons (c c' : ascii) (s : string) :
  String.prefix (String c "") (String c' s) = bool_decide (c = c').
Proof.
  case_bool_decide as H.
  - apply prefix_char. subst. eauto.
  - apply not_true_is_false. intros [s' [= -> _]]%prefix_char. done.
Qed.

(** No occurrence of the one-byte separator. *)
Lemma Index_char_None (c : ascii) (s : string) :
  Index s (String c "") = None <-> c ∉ list_ascii_of_string s.
Proof.
  induction s as [|c' s IH].
  - cbn. split; [intros _; apply not_elem_of_nil | done].
  - rewrite Index_unfold, prefix_char_cons. cbn [list_ascii_of_string].
    rewrite not_elem_of_cons, <- IH.
    case_bool_decide as H.
    + split; [done | by intros [? _]].
    + destruct (Index s (String c "")); simpl; split; try done.
      by intros [_ ?].
Qed.

(** The first occurrence of a one-byte separator splits the text there. *)
Lemma Index_char_app (c : ascii) (a b : string) :
  Index a (String c "") = None ->
  Index (a ++ String c b) (String c "") = Some (String.length a).
Proof.
  induction a as [|c' a IH]; intros Ha.
  - change ("" ++ String c b) with (String c b).
    rewrite Index_unfold, prefix_char_cons.
    by rewrite bool_decide_eq_true_2.
  - change (String c' a ++ String c b) with (String c' (a ++ String c b)).
    rewrite Index_unfold, prefix_char_cons in Ha |- *.
    case_bool_decide as H; [done|].
    destruct (Index a (String c "")) eqn:Hi; [done|].
    by rewrite IH.
Qed.

Lemma cuts_nonempty (n : nat) (s sep : string) : exists p ps, cuts n s sep = p :: ps.
Proof. destruct n; simpl; [eauto|]. destruct (Index s sep); eauto. Qed.

Lemma Index_empty (sep : string) : sep <> "" -> Index "" sep = None.
Proof. by destruct sep. Qed.

(** [Split] yields a single piece exactly when the separator does not
    occur. *)
Lemma Split_single (s sep : string) :
  sep <> "" -> (Split s sep !! 1 = None <-> Index s sep = None).
Proof.
  intros Hsep. unfold Split, SplitN. cbn [Z.eqb Z.ltb Z.compare].
  destruct s as [|c s].
  - cbn [String.length cuts]. rewrite Index_empty by done. done.
  - cbn [String.length cuts].
    destruct (Index (String c s) sep) as [m|] eqn:Hi; [|done].
    destruct (cuts_nonempty (String.length s)
                (slice_from (m + String.length sep) (String c s)) sep)
      as (p & ps & ->).
    done.
Qed.

Lemma Split_head (s sep : string) : exists p ps, Split s sep = p :: ps.
Proof.
  unfold Split, SplitN. cbn [Z.eqb Z.ltb Z.compare]. apply cuts_nonempty.
Qed.

Lemma prefix_length (sep s : string) :
  String.prefix sep s = true -> String.length sep <= String.length s.
Proof.
  revert s. induction sep as [|c sep IH]; intros [|c' s]; simpl; try (done || lia).
  destruct (Ascii.ascii_dec c c'); [|done]. intros H%IH. lia.
Qed.

Lemma Index_bound (s sep : string) (m : nat) :
  Index s sep = Some m -> m + String.length sep <= String.length s.
Proof.
  revert m. induction s as [|c s IH]; intros m; rewrite Index_unfold;
    destruct (String.prefix sep _) eqn:Hp.
  - intros [= <-]. by apply prefix_length in Hp.
  - done.
  - intros [= <-]. by apply prefix_length in Hp.
  - destruct (Index s sep) as [m'|]; [|done]. intros [= <-].
    specialize (IH m' eq_refl). simpl. lia.
Qed.

Lemma slice_from_length (n : nat) (s : string) :
  String.length (slice_from n s) = String.length s - n.
Proof. revert s. induction n as [|n IH]; intros [|c s]; simpl; auto. Qed.

(** [cuts] with as many cuts allowed as the text has bytes is the whole
    loop of [genSplit]: more cuts allowed give the same pieces. *)
Lemma cuts_enough (n1 n2 : nat) (s sep : string) :
  sep <> "" -> String.length s <= n1 -> String.length s <= n2 ->
  cuts n1 s sep = cuts n2 s sep.
Proof.
  intros Hsep. revert n2 s.
  assert (forall n, cuts n "" sep = [""]) as Hempty.
  { intros [|n]; cbn [cuts]; [done|]. by rewrite Index_empty. }
  induction n1 as [|n1 IH]; intros n2 s H1 H2.
  - destruct s; [|simpl in H1; lia]. by rewrite !Hempty.
  - destruct n2 as [|n2].
    + destruct s; [|simpl in H2; lia]. by rewrite !Hempty.
    + cbn [cuts]. destruct (Index s sep) as [m|] eqn:Hi; [|done].
      f_equal. pose proof (Index_bound s sep m Hi) as Hb.
      assert (0 < String.length sep) by (destruct sep; [done | simpl; lia]).
      apply IH; rewrite slice_from_length; lia.
Qed.

Ltac unfold_append :=
  cbv [String.append] in *; fold String.append in *.

Lemma length_append (a b : string) :
  String.length (a ++ b) = String.length a + String.length b.
Proof. induction a as [|x a IH]; unfold_append; simpl; [done | by rewrite IH]. Qed.

Lemma slice_to_from (n : nat) (s : string) : slice_to n s ++ slice_from n s = s.
Proof.
  revert s. induction n as [|n IH]; intros [|c s]; simpl; unfold_append; try done.
  by rewrite IH.
Qed.

Lemma HasPrefix_spec (s pre : string) :
  HasPrefix s pre = true <-> exists t, s = pre ++ t.
Proof.
  unfold HasPrefix. revert s. induction pre as [|c pre IH]; intros s.
  - split; [intros _; by exists s | intros _; by destruct s].
  - destruct s as [|c' s]; simpl.
    + split; [done | intros [t Ht]; unfold_append; discriminate Ht].
    + destruct (Ascii.ascii_dec c c') as [->|Hne].
      * rewrite IH. split; intros [t Ht]; exists t; unfold_append; congruence.
      * split; [done | intros [t Ht]; unfold_append; congruence].
Qed.

Lemma HasSuffix_spec (s suf : string) :
  HasSuffix s suf = true <-> exists u, s = u ++ suf.
Proof.
  unfold HasSuffix. rewrite andb_true_iff, Nat.leb_le, String.eqb_eq. split.
  - intros [_ Hs]. exists (slice_to (String.length s - String.length suf) s).
    pose proof (slice_to_from (String.length s - String.length suf) s) as Hst.
    rewrite Hs in Hst. done.
  - intros [u ->]. rewrite length_append. split; [lia|].
    replace (String.length u + String.length suf - String.length suf)
      with (String.length u) by lia.
    apply slice_from_app.
Qed.

Lemma SplitN_2 (s sep : string) :
  SplitN s sep 2 =
    match Index s sep with
    | None => [s]
    | Some m => [slice_to m s; slice_from (m + String.length sep) s]
    end.
Proof. reflexivity. Qed.

Lemma slice_from_app_char (a b : string) (c : ascii) :
  slice_from (String.length a + 1) (a ++ String c b) = b.
Proof. induction a as [|x a IH]; simpl; done. Qed.

(** [SplitN(text, " ", 2)] cuts at the first space only. *)
Lemma SplitN_first_space (commit src : string) :
  Index commit " " = None ->
  SplitN (commit ++ " " ++ src) " " 2 = [commit; src].
Proof.
  intros Hc. rewrite SplitN_2.
  change (" " ++ src) with (String " " src).
  rewrite (Index_char_app " " commit src Hc), slice_to_app.
  by rewrite slice_from_app_char.
Qed.

Lemma SplitN_no_space (text : string) :
  Index text " " = None -> SplitN text " " 2 = [text].
Proof. intros Hc. by rewrite SplitN_2, Hc. Qed.

End StringFacts.

(** ** Remote reference index *)

Section IndexFacts.

Lemma tab_nonempty : tab <> "".
Proof. done. Qed.

(** A line has fewer than two tab-separated fields exactly when it holds
    no tab. *)
Lemma fields_lt_2 (v : string) :
  length (Split v tab) < 2 <-> Index v tab = None.
Proof.
  rewrite <- (StringFacts.Split_single v tab tab_nonempty).
  destruct (StringFacts.Split_head v tab) as (p & ps & ->).
  destruct ps; simpl; split; (done || lia).
Qed.

Lemma toRefToHash_step_panic (m : RefToHash) (v : string) :
  Index v tab = None -> toRefToHash_step m v = Panic indexOutOfRange.
Proof.
  intros H%(StringFacts.Split_single v tab tab_nonempty).
  unfold toRefToHash_step.
  destruct (StringFacts.Split_head v tab) as (p & ps & E).
  rewrite E in *. destruct ps; [done | discriminate H].
Qed.

Lemma toRefToHash_step_ok (m : RefToHash) (v : string) :
  Index v tab <> None ->
  exists hash ref rest,
    Split v tab = hash :: ref :: rest /\
    toRefToHash_step m v = Ok (<[ref := hash]> m).
Proof.
  intros H. rewrite <- (StringFacts.Split_single v tab tab_nonempty) in H.
  unfold toRefToHash_step.
  destruct (StringFacts.Split_head v tab) as (p & ps & E).
  rewrite E in *. destruct ps as [|q ps]; [done|].
  by exists p, q, ps.
Qed.

Lemma toRefToHash_loop_panic (remotes : list string) (m : RefToHash) :
  Exists (fun v => Index v tab = None) remotes ->
  toRefToHash_loop remotes m = Panic indexOutOfRange.
Proof.
  revert m. induction remotes as [|v rest IH]; intros m Hex.
  - by apply Exists_nil in Hex.
  - cbn [toRefToHash_loop].
    destruct (Index v tab) as [i|] eqn:Hi.
    + destruct (toRefToHash_step_ok m v) as (h & r & tl & _ & ->); [congruence|].
      apply Exists_cons in Hex as [Hv|Hrest]; [congruence|].
      by apply IH.
    + by rewrite toRefToHash_step_panic.
Qed.

Lemma toRefToHash_loop_ok (remotes : list string) (m : RefToHash) :
  Forall (fun v => Index v tab <> None) remotes ->
  exists table, toRefToHash_loop remotes m = Ok table.
Proof.
  revert m. induction remotes as [|v rest IH]; intros m Hall.
  - by exists m.
  - apply Forall_cons in Hall as [Hv Hrest]. cbn [toRefToHash_loop].
    destruct (toRefToHash_step_ok m v Hv) as (h & r & tl & _ & ->).
    by apply IH.
Qed.

End IndexFacts.

(** C5, as the code has it.  [toRefToHash] has no error result.  It panics
    with an index out of range exactly when some line of the listing (the
    text without one trailing line feed, cut at the line feeds) has fewer
    than two tab-separated fields, that is, holds no tab; otherwise it
    returns a table.  A line with two or more fields enters the table with
    its first two fields. *)
Theorem toRefToHash_panics_without_tab (b : string) :
  (toRefToHash b = Panic indexOutOfRange <->
     exists v, v ∈ Split (TrimSuffix b newline) newline /\ length (Split v tab) < 2)
  /\ ((exists table, toRefToHash b = Ok table) <->
     forall v, v ∈ Split (TrimSuffix b newline) newline -> 2 <= length (Split v tab))
  /\ (forall e, toRefToHash b <> Err e)
  /\ (forall m v hash ref rest,
        Split v tab = hash :: ref :: rest ->
        toRefToHash_step m v = Ok (<[ref := hash]> m)).
Proof.
  assert (forall (m : RefToHash) v hash ref rest,
            Split v tab = hash :: ref :: rest ->
            toRefToHash_step m v = Ok (<[ref := hash]> m)) as Hstep.
  { intros m v hash ref rest E. unfold toRefToHash_step. by rewrite E. }
  unfold toRefToHash.
  set (remotes := Split (TrimSuffix b newline) newline).
  destruct (decide (Exists (fun v => Index v tab = None) remotes)) as [Hex|Hno].
  - pose proof (toRefToHash_loop_panic remotes ∅ Hex) as ->.
    apply Exists_exists in Hex as (v & Hv & Hi).
    split; [|split; [|split]].
    + split; [|done]. intros _. exists v. by rewrite fields_lt_2.
    + split; [by intros [? ?]|].
      intros Hall. specialize (Hall v Hv). apply fields_lt_2 in Hi. lia.
    + done.
    + done.
  - apply not_Exists_Forall in Hno; [|intros v; apply _].
    destruct (toRefToHash_loop_ok remotes ∅) as [table ->].
    { eapply Forall_impl; [exact Hno|]. simpl. intros v Hv. exact Hv. }
    split; [|split; [|split]].
    + split; [done|]. intros (v & Hv & Hlt). apply fields_lt_2 in Hlt.
      rewrite Forall_forall in Hno. by destruct (Hno v Hv).
    + split; [|by eauto]. intros _ v Hv.
      rewrite Forall_forall in Hno. specialize (Hno v Hv). simpl in Hno.
      destruct (decide (length (Split v tab) < 2)) as [Hlt|]; [|lia].
      by apply fields_lt_2 in Hlt.
    + done.
    + done.
Qed.

(** C5 as stated fails: the listing [deadbeef] has a line that does not
    split into two fields, and [toRefToHash] panics instead of returning an
    error. *)
Lemma toRefToHash_no_error_result :
  (exists v, v ∈ Split (TrimSuffix "deadbeef" newline) newline
             /\ length (Split v tab) <> 2)
  /\ toRefToHash "deadbeef" = Panic indexOutOfRange
  /\ ~ (exists e, toRefToHash "deadbeef" = Err e).
Proof.
  split; [|split].
  - exists "deadbeef". split; [vm_compute; left | vm_compute; lia].
  - reflexivity.
  - intros [e He]. vm_compute in He. discriminate He.
Qed.

(** A line with a third field is accepted; the first two fields are used. *)
Example toRefToHash_three_fields :
  toRefToHash ("abc123" ++ tab ++ "refs/heads/main" ++ tab ++ "extra" ++ newline)
  = Ok {[ "refs/heads/main" := "abc123" ]}.
Proof. vm_compute. reflexivity. Qed.

(** An empty listing is one empty line, which has no tab. *)
Example toRefToHash_empty : toRefToHash "" = Panic indexOutOfRange.
Proof. reflexivity. Qed.

(** ** The order of Go strings and the sort *)

Module SortFacts.
Import Sort.

Lemma ascii_compare_spec (a b : ascii) :
  CompareSpec (a = b) (N_of_ascii a < N_of_ascii b)%N
    (N_of_ascii b < N_of_ascii a)%N (Ascii.compare a b).
Proof.
  unfold Ascii.compare.
  destruct (N.compare_spec (N_of_ascii a) (N_of_ascii b)) as [E| |];
    constructor; try done.
  by rewrite <- (ascii_N_embedding a), E, ascii_N_embedding.
Qed.

Lemma compare_refl (x : string) : String.compare x x = Eq.
Proof.
  induction x as [|a x IH]; simpl; [done|].
  destruct (ascii_compare_spec a a); [done | lia | lia].
Qed.

Lemma compare_lt_trans (x y z : string) :
  String.compare x y = Lt -> String.compare y z = Lt -> String.compare x z = Lt.
Proof.
  revert y z. induction x as [|a x IH]; intros [|b y] [|c z]; simpl; try done.
  destruct (ascii_compare_spec a b), (ascii_compare_spec b c),
    (ascii_compare_spec a c); subst; try done; try lia; eauto.
Qed.

Lemma ltb_false_iff (x y : string) :
  String.ltb x y = false <-> String.leb y x = true.
Proof.
  unfold String.ltb, String.leb. rewrite (String.compare_antisym x y).
  by destruct (String.compare y x).
Qed.

Lemma descending_leb (x y : string) : descending x y <-> String.leb y x = true.
Proof. unfold ordered, Reverse, StringSlice_Less. apply ltb_false_iff. Qed.

Global Instance descending_total : Total descending.
Proof.
  intros x y. rewrite !descending_leb.
  destruct (String.leb_total x y); auto.
Qed.

Global Instance descending_antisymm : AntiSymm (=) descending.
Proof.
  intros x y. rewrite !descending_leb. intros H1 H2.
  by apply String.leb_antisym.
Qed.

Global Instance descending_trans : Transitive descending.
Proof.
  intros x y z. unfold ordered, Reverse, StringSlice_Less, String.ltb.
  intros Hxy Hyz.
  destruct (String.compare x z) eqn:Hxz; try done.
  destruct (String.compare x y) eqn:Exy; try done.
  - apply String.compare_eq_iff in Exy as ->. by rewrite Hxz in Hyz.
  - assert (String.compare y x = Lt) as Hyx
      by (rewrite String.compare_antisym, Exy; done).
    by rewrite (compare_lt_trans y x z Hyx Hxz) in Hyz.
Qed.

Lemma Sort_sorted (l : list string) :
  StronglySorted descending (Sort (Reverse StringSlice_Less) l).
Proof. apply StronglySorted_merge_sort; apply _. Qed.

Lemma Sort_perm (l : list string) : Sort (Reverse StringSlice_Less) l ≡ₚ l.
Proof. apply merge_sort_Permutation. Qed.

(** The sorted slice does not depend on the algorithm, nor on the order
    of the input. *)
Lemma Sort_unique (l l' : list string) :
  l' ≡ₚ l -> StronglySorted descending l' ->
  l' = Sort (Reverse StringSlice_Less) l.
Proof.
  intros Hp Hs. apply (StronglySorted_unique descending); [done | apply Sort_sorted |].
  by rewrite Hp, Sort_perm.
Qed.

Lemma Sort_perm_eq (l l' : list string) :
  l' ≡ₚ l ->
  Sort (Reverse StringSlice_Less) l' = Sort (Reverse StringSlice_Less) l.
Proof.
  intros Hp. apply Sort_unique; [|apply Sort_sorted].
  by rewrite Sort_perm.
Qed.

End SortFacts.

(** C7, as the code has it.  For the candidates ["12"; "5"; "100"] the
    descending sort of the matcher yields ["5"; "12"; "100"]: ["12"] is
    above ["100"] because ['2'] is above ['0']. *)
Theorem sort_example_descending :
  Sort.Sort (Sort.Reverse Sort.StringSlice_Less) ["12"; "5"; "100"]
  = ["5"; "12"; "100"].
Proof. vm_compute. reflexivity. Qed.

(** C7 as stated fails: the sorted list is not ["5"; "100"; "12"]. *)
Lemma sort_example_not_as_stated :
  Sort.Sort (Sort.Reverse Sort.StringSlice_Less) ["12"; "5"; "100"]
  <> ["5"; "100"; "12"].
Proof. vm_compute. discriminate. Qed.

(** ** PR reference matcher *)

Section MatcherFacts.

Variable rangeOrder : RefToHash -> list (string * string).
Hypothesis rangeOrder_entries : forall m, rangeOrder m ≡ₚ map_to_list m.

Lemma collect_step_spec (h : string) (acc : list string) (e : string * string) :
  collect_step h acc e =
    (acc ++ (if decide (matches_target h e) then [extractPRID e.1] else []))%list.
Proof.
  destruct e as [ref hash].
  destruct (decide (matches_target h (ref, hash))) as [[Hpr Hh]|Hn];
    unfold collect_step; simpl in *.
  - subst hash. by rewrite Hpr, String.eqb_refl.
  - rewrite app_nil_r. destruct (isPRRef ref) eqn:Hpr; simpl; [|done].
    destruct (String.eqb_spec hash h) as [->|Hne]; simpl; [|done].
    by destruct Hn.
Qed.

Lemma foldl_collect (h : string) (entries : list (string * string)) (acc : list string) :
  foldl (collect_step h) acc entries =
    (acc ++ ((fun e => extractPRID e.1) <$> filter (matches_target h) entries))%list.
Proof.
  revert acc. induction entries as [|e entries IH]; intros acc; simpl.
  - by rewrite app_nil_r.
  - rewrite IH, collect_step_spec, filter_cons.
    destruct (decide (matches_target h e)); simpl.
    + by rewrite <- app_assoc.
    + by rewrite app_nil_r.
Qed.

Lemma collectPRIDs_spec (h : string) (entries : list (string * string)) :
  collectPRIDs h entries =
    (fun e => extractPRID e.1) <$> filter (matches_target h) entries.
Proof. unfold collectPRIDs. by rewrite foldl_collect. Qed.

Lemma collectPRIDs_perm (h : string) (l l' : list (string * string)) :
  l ≡ₚ l' -> collectPRIDs h l ≡ₚ collectPRIDs h l'.
Proof. intros Hp. rewrite !collectPRIDs_spec. by rewrite Hp. Qed.

Lemma elem_of_collectPRIDs (table : RefToHash) (h id : string) :
  id ∈ collectPRIDs h (rangeOrder table) <->
  exists ref, isPRRef ref = true /\ table !! ref = Some h /\ id = extractPRID ref.
Proof.
  rewrite collectPRIDs_spec, list_elem_of_fmap. split.
  - intros ([ref hash] & -> & [[Hpr Hh] Hin]%list_elem_of_filter).
    simpl in *. subst hash. exists ref. split; [done|]. split; [|done].
    rewrite rangeOrder_entries in Hin. by apply elem_of_map_to_list in Hin.
  - intros (ref & Hpr & Hl & ->). exists (ref, h). split; [done|].
    apply list_elem_of_filter. split; [done|].
    rewrite rangeOrder_entries. by apply elem_of_map_to_list.
Qed.


(** The candidates do not depend on the order in which the map is
    visited. *)
Lemma candidates_order_independent (table : RefToHash) (h : string) :
  candidates rangeOrder table h = candidates map_to_list table h.
Proof.
  unfold candidates. apply SortFacts.Sort_perm_eq, collectPRIDs_perm.
  apply rangeOrder_entries.
Qed.

End MatcherFacts.

(** The names [isPRRef] accepts: [refs/pull/<id>/head] for any text [<id>],
    and [refs/pull/head], where the prefix and the suffix share the
    slash. *)
Lemma isPRRef_form (ref : string) :
  isPRRef ref = true <->
  (exists id, ref = "refs/pull/" ++ id ++ "/head") \/ ref = "refs/pull/head".
Proof.
  unfold isPRRef. rewrite andb_true_iff, StringFacts.HasPrefix_spec,
    StringFacts.HasSuffix_spec.
  change refPullRequestPrefix with "refs/pull/".
  change refPullRequestSuffix with "/head". split.
  - intros [[t ->] [u H]].
    assert ((exists id, t = id ++ "/head") \/ t = "head") as [[id ->]| ->];
      [|left; by exists id|by right].
    do 10 (destruct u as [|? u]; cbv [String.append] in H; fold String.append in H;
      [ first [discriminate H | injection H as ->; by right]
      | injection H as <- H ]).
    left. by exists u.
  - intros [[id ->]| ->].
    + split; [by eexists|]. exists ("refs/pull/" ++ id).
      clear. cbv [String.append]. fold String.append. done.
    + split; [by exists "head" | by exists "refs/pull"].
Qed.

Example isPRRef_examples :
  isPRRef "refs/pull/42/head" = true /\ isPRRef "refs/pull//head" = true
  /\ isPRRef "refs/pull/head" = true /\ isPRRef "refs/heads/main" = false
  /\ isPRRef "refs/pull/42/merge" = false.
Proof. repeat split. Qed.

(** ** Disambiguation selector *)

Ltac key_cases key :=
  unfold Update, key_in; cbn [existsb];
  repeat match goal with
    | |- context [String.eqb key ?s] =>
        destruct (String.eqb_spec key s) as [->|?]; cbn [orb existsb String.eqb Ascii.eqb Bool.eqb]
    end.

Section SelectorFacts.

Lemma Update_choices (p : prSelector) (msg : Msg) :
  choices (Update p msg).1 = choices p.
Proof.
  destruct msg as [key|]; [|done]. key_cases key; simpl; try done.
  - by destruct (cursor p <? _)%Z.
  - by destruct (cursor p <? _)%Z.
  - by destruct (cursor p >? _)%Z.
  - by destruct (cursor p >? _)%Z.
Qed.

Lemma Update_in_bounds (p : prSelector) (msg : Msg) :
  in_bounds p -> in_bounds (Update p msg).1.
Proof.
  unfold in_bounds. intros Hb.
  destruct msg as [key|]; [|done]. key_cases key; simpl; try done.
  - destruct (Z.ltb_spec (cursor p) (Z.of_nat (length (choices p)) - 1)); simpl; lia.
  - destruct (Z.ltb_spec (cursor p) (Z.of_nat (length (choices p)) - 1)); simpl; lia.
  - destruct (Z.gtb_spec (cursor p) 0); simpl; lia.
  - destruct (Z.gtb_spec (cursor p) 0); simpl; lia.
Qed.

(** A message that does not end the loop leaves [selected] alone. *)
Lemma Update_selected (p : prSelector) (msg : Msg) :
  (Update p msg).2 = None -> selected (Update p msg).1 = selected p.
Proof.
  destruct msg as [key|]; [|done]. key_cases key; simpl; try done.
  - by destruct (cursor p <? _)%Z.
  - by destruct (cursor p <? _)%Z.
  - by destruct (cursor p >? _)%Z.
  - by destruct (cursor p >? _)%Z.
Qed.

Lemma Update_quit (p : prSelector) (key : string) :
  key ∈ ["q"; "esc"; "ctrl+c"] -> Update p (KeyMsg key) = (p, Some Quit).
Proof.
  rewrite !elem_of_cons. intros [->|[->|[->|H]]]; try done.
  by apply not_elem_of_nil in H.
Qed.

Lemma run_updates_snoc (p : prSelector) (msgs : list Msg) (msg : Msg) :
  run_updates p (msgs ++ [msg]) = (Update (run_updates p msgs) msg).1.
Proof. unfold run_updates. by rewrite foldl_app. Qed.

Lemma run_updates_invariant (p : prSelector) (msgs : list Msg) :
  in_bounds p ->
  in_bounds (run_updates p msgs) /\ choices (run_updates p msgs) = choices p.
Proof.
  intros Hb. induction msgs as [|msg msgs IH] using rev_ind; [done|].
  rewrite run_updates_snoc. destruct IH as [IHb IHc].
  split; [by apply Update_in_bounds | by rewrite Update_choices].
Qed.

(** The event loop up to a quit key: the model it returns has no
    selection. *)
Lemma eventLoop_quit (p : prSelector) (pre rest : list Msg) (key closed : string) :
  Forall (fun msg => forall q, (Update q msg).2 = None) pre ->
  key ∈ ["q"; "esc"; "ctrl+c"] ->
  exists tr final,
    eventLoop p (pre ++ KeyMsg key :: rest) closed = (tr, Ok final)
    /\ selected final = selected p.
Proof.
  intros Hpre Hkey. revert p.
  induction Hpre as [|msg pre Hmsg Hpre IH]; intros p.
  - simpl app. cbn [eventLoop]. rewrite (Update_quit p key Hkey). eauto.
  - simpl app. cbn [eventLoop].
    pose proof (Hmsg p) as Hcmd. pose proof (Update_selected p msg Hcmd) as Hsel.
    destruct (Update p msg) as [p' cmd]. simpl in *. subst cmd.
    destruct (IH p') as (tr & final & -> & Hfinal).
    eexists _, final. split; [done | congruence].
Qed.

End SelectorFacts.

(** C9.  Started with the cursor at 0 over a non-empty list of choices, the
    selector keeps the cursor inside the list after every sequence of
    messages.  In every state so reached, a down key moves the cursor up by
    one only below the last index, an up key moves it down by one only
    above 0, and the enter key sets [selected] to the cursor and ends the
    loop. *)
Theorem selector_cursor_in_bounds (cs : list string) (repo : string) (msgs : list Msg) :
  cs <> [] ->
  let p := run_updates (mkSelector cs 0 (-1) repo) msgs in
  choices p = cs
  /\ (0 <= cursor p <= Z.of_nat (length cs) - 1)%Z
  /\ (forall key, key ∈ ["j"; "down"] ->
        Update p (KeyMsg key) =
          (if (cursor p <? Z.of_nat (length cs) - 1)%Z
           then with_cursor p (cursor p + 1) else p, None))
  /\ (forall key, key ∈ ["k"; "up"] ->
        Update p (KeyMsg key) =
          (if (cursor p >? 0)%Z then with_cursor p (cursor p - 1) else p, None))
  /\ Update p (KeyMsg "enter") = (with_selected p (cursor p), Some Quit)
  /\ selected (Update p (KeyMsg "enter")).1 = cursor p
  /\ cursor (Update p (KeyMsg "enter")).1 = cursor p.
Proof.
  intros Hcs p.
  assert (in_bounds (mkSelector cs 0 (-1) repo)) as H0.
  { unfold in_bounds. simpl. destruct cs; [done | simpl; lia]. }
  destruct (run_updates_invariant _ msgs H0) as [Hb Hc].
  fold p in Hb, Hc. simpl in Hc. unfold in_bounds in Hb. rewrite Hc in Hb.
  split; [done|]. split; [done|]. split; [|split; [|done]].
  - intros key. rewrite !elem_of_cons.
    intros [->|[->|H]]; [by rewrite <- Hc | by rewrite <- Hc |].
    by apply not_elem_of_nil in H.
  - intros key. rewrite !elem_of_cons.
    intros [->|[->|H]]; [done | done |].
    by apply not_elem_of_nil in H.
Qed.

Lemma selector_cursor_in_bounds_witness :
  let p := run_updates (mkSelector ["12"; "5"] 0 (-1) "P/r")
             [KeyMsg "j"; KeyMsg "down"; KeyMsg "x"; OtherMsg; KeyMsg "k"; KeyMsg "j"] in
  cursor p = 1%Z /\ (0 <= cursor p <= 1)%Z
  /\ (Update p (KeyMsg "enter")).1 = mkSelector ["12"; "5"] 1 1 "P/r".
Proof.
  pose proof (selector_cursor_in_bounds ["12"; "5"] "P/r"
    [KeyMsg "j"; KeyMsg "down"; KeyMsg "x"; OtherMsg; KeyMsg "k"; KeyMsg "j"]
    ltac:(discriminate)) as (_ & Hb & _ & _ & Henter & _).
  intros p. split; [reflexivity|]. split; [exact Hb|].
  subst p. rewrite Henter. reflexivity.
Defined.

(** C2.  On a single candidate [selectPR] returns that candidate and
    performs no event of the interactive step: no selector is made, no
    frame is rendered and no message is read, whatever the terminal would
    deliver. *)
Theorem selectPR_single_no_prompt (b : BacklogRepository) (id : string) (tty : Terminal) :
  selectPR b [id] tty = ([], Ok id).
Proof. reflexivity. Qed.

(** C3.  When the user leaves the selector with a quit key ([q], [esc] or
    [ctrl+c]) after messages that do not end the loop, the runtime returns
    a selector whose [selected] is still -1 and [selectPR] ends the process
    with exit code 0. *)
Theorem selectPR_abort_exits_0 (b : BacklogRepository) (prIDs : list string)
    (pre rest : list Msg) (key closed : string) :
  length prIDs <> 1 ->
  Forall (fun msg => forall q, (Update q msg).2 = None) pre ->
  key ∈ ["q"; "esc"; "ctrl+c"] ->
  let v := mkSelector prIDs 0 (-1) (projectKey b ++ "/" ++ repoName b) in
  let tty := mkTerminal (pre ++ KeyMsg key :: rest) closed in
  exists tr final,
    Run v tty = (tr, Ok final)
    /\ selected final = (-1)%Z
    /\ selectPR b prIDs tty = (tr, Exit 0).
Proof.
  intros Hlen Hpre Hkey v tty.
  destruct (eventLoop_quit v pre rest key closed Hpre Hkey)
    as (tr & final & Hloop & Hsel).
  simpl in Hsel.
  exists (EvNewProgram v :: EvRender (View v) :: tr), final.
  assert (Run v tty = (EvNewProgram v :: EvRender (View v) :: tr, Ok final)) as HRun.
  { unfold Run, tty. cbn [delivered failure]. by rewrite Hloop. }
  split; [done|]. split; [done|].
  unfold selectPR. apply Nat.eqb_neq in Hlen. rewrite Hlen.
  fold v. rewrite HRun, Hsel. reflexivity.
Qed.

Lemma selectPR_abort_exits_0_witness :
  let b := mkBacklogRepository "refs/heads/feature" (Ok ∅) "PRJ" "app" in
  let tty := mkTerminal [KeyMsg "j"; OtherMsg; KeyMsg "esc"; KeyMsg "enter"] "closed" in
  exists tr final,
    Run (mkSelector ["7"; "12"] 0 (-1) "PRJ/app") tty = (tr, Ok final)
    /\ selected final = (-1)%Z
    /\ selectPR b ["7"; "12"] tty = (tr, Exit 0).
Proof.
  apply (selectPR_abort_exits_0
    (mkBacklogRepository "refs/heads/feature" (Ok ∅) "PRJ" "app")
    ["7"; "12"] [KeyMsg "j"; OtherMsg] [KeyMsg "enter"] "esc" "closed").
  - simpl. lia.
  - repeat constructor.
  - set_solver.
Defined.

(** ** The matcher as a whole *)

Section FindFacts.



Lemma StronglySorted_weaken {A : Type} (R R' : A -> A -> Prop) (l : list A) :
  (forall x y, R x y -> R' x y) -> StronglySorted R l -> StronglySorted R' l.
Proof.
  intros HR. induction 1 as [|x l Hs IH Hall]; constructor; [done|].
  eapply Forall_impl; [exact Hall | auto].
Qed.

End FindFacts.

(** C6.  The candidate list that [findPullRequestIDFromRemote] hands on is
    in descending order of Go's byte-wise string comparison: every
    identifier is at least as large, as a string, as each one after it.  It
    holds exactly the identifiers extracted from the pull-request
    references whose hash is the target's. *)
Theorem candidates_sorted_descending
    (rangeOrder : RefToHash -> list (string * string))
    (rangeOrder_entries : forall m, rangeOrder m ≡ₚ map_to_list m)
    (b : BacklogRepository) (ref : string) (tty : Terminal)
    (table : RefToHash) (h : string) :
  repo_LsRemote b = Ok table ->
  table !! ref = Some h ->
  let ids := candidates rangeOrder table h in
  StronglySorted (fun x y => String.leb y x = true) ids
  /\ ids ≡ₚ collectPRIDs h (rangeOrder table)
  /\ (forall id, id ∈ ids <->
        exists pr, isPRRef pr = true /\ table !! pr = Some h /\ id = extractPRID pr)
  /\ (ids <> [] ->
        findPullRequestIDFromRemote rangeOrder b ref tty = selectPR b ids tty).
Proof.
  intros Hls Href ids. split; [|split; [|split]].
  - eapply StronglySorted_weaken; [|apply SortFacts.Sort_sorted].
    intros x y. by rewrite SortFacts.descending_leb.
  - apply SortFacts.Sort_perm.
  - intros id. unfold ids, candidates. rewrite SortFacts.Sort_perm.
    by apply elem_of_collectPRIDs.
  - intros Hne. unfold findPullRequestIDFromRemote. rewrite Hls, Href.
    destruct (collectPRIDs h (rangeOrder table)) as [|id0 rest] eqn:E.
    + exfalso. apply Hne. unfold ids, candidates. by rewrite E.
    + simpl length. cbn [Nat.eqb]. unfold ids, candidates. by rewrite E.
Qed.

(** Identifiers are ordered as strings, not as numbers: ["9"] comes before
    ["10"]. *)
Example candidates_lexical :
  candidates map_to_list
    (list_to_map [("refs/heads/feature", "abc123"); ("refs/pull/9/head", "abc123");
                  ("refs/pull/10/head", "abc123"); ("refs/pull/11/head", "fff000")])
    "abc123"
  = ["9"; "10"].
Proof. vm_compute. reflexivity. Qed.

Lemma candidates_sorted_descending_witness :
  let table : RefToHash :=
    list_to_map [("refs/heads/feature", "abc123"); ("refs/pull/9/head", "abc123");
                 ("refs/pull/10/head", "abc123"); ("refs/pull/11/head", "fff000")] in
  StronglySorted (fun x y => String.leb y x = true) (candidates map_to_list table "abc123")
  /\ candidates map_to_list table "abc123" = ["9"; "10"].
Proof.
  intros table.
  pose proof (candidates_sorted_descending map_to_list (fun m => reflexivity _)
    (mkBacklogRepository "refs/heads/feature" (Ok table) "PRJ" "app")
    "refs/heads/feature" (mkTerminal [] "closed") table "abc123"
    eq_refl ltac:(vm_compute; reflexivity)) as (Hs & _).
  split; [exact Hs | vm_compute; reflexivity].
Defined.



(** A listing with one matching pull request resolves without a prompt. *)
Example resolve_single_pull_request :
  let listing := "abc123" ++ tab ++ "refs/heads/feature" ++ newline
                 ++ "abc123" ++ tab ++ "refs/pull/42/head" ++ newline in
  findPullRequestIDFromRemote map_to_list
    (mkBacklogRepository "refs/heads/feature" (repository_LsRemote (inl listing))
       "PRJ" "app")
    "refs/heads/feature" (mkTerminal [KeyMsg "q"] "closed")
  = ([], Ok "42").
Proof. vm_compute. reflexivity. Qed.

(** ** Blame attribution *)

Section BlameFacts.

Variable gitShow : string -> string + error.

Lemma BlamePR_step_unfold (st : blame) (text : string) :
  BlamePR_step gitShow st text =
    match parse_line text with
    | Some (commit, src) =>
        match BlamePR_fill gitShow st commit with
        | (st', Ok _) => (BlamePR_print st' commit src, Ok ())
        | (st', r) => (st', r)
        end
    | None => (st, Panic indexOutOfRange)
    end.
Proof.
  unfold BlamePR_step, parse_line. rewrite StringFacts.SplitN_2.
  by destruct (Index text " ").
Qed.

Lemma blame_line_ext (c1 c2 : gmap string string) (commit src : string) :
  c1 !! commit = c2 !! commit -> blame_line c1 commit src = blame_line c2 commit src.
Proof. unfold blame_line. by intros ->. Qed.

Lemma live_init : live blame_init.
Proof.
  split; [constructor|]. intros c. simpl. rewrite lookup_empty.
  split; [by intros ?%not_elem_of_nil | by intros [? ?]].
Qed.

Lemma BlamePR_fill_spec (st st' : blame) (commit : string) (r : result unit) :
  live st -> BlamePR_fill gitShow st commit = (st', r) ->
  NoDup (queried st')
  /\ cached st ⊆ cached st'
  /\ printed st' = printed st
  /\ (forall c, c ∈ queried st' -> c ∈ queried st \/ c = commit)
  /\ (r = Ok () -> live st' /\ is_Some (cached st' !! commit))
  /\ (cached st !! commit = None -> commit ∈ queried st').
Proof.
  intros [Hnd Hq] Hfill. unfold BlamePR_fill in Hfill.
  destruct (cached st !! commit) as [label|] eqn:Hc.
  - injection Hfill as <- <-. repeat split; try done; eauto; apply Hq.
  - assert (commit ∉ queried st) as Hfresh.
    { rewrite Hq, Hc. by intros [? ?]. }
    assert (NoDup (queried st ++ [commit])%list) as Hnd'.
    { apply NoDup_app. split; [done|]. split; [|apply NoDup_singleton].
      intros c Hin ->%list_elem_of_singleton. done. }
    assert (forall c, c ∈ (queried st ++ [commit])%list -> c ∈ queried st \/ c = commit) as Hsub.
    { intros c [?|?%list_elem_of_singleton]%elem_of_app; auto. }
    assert (commit ∈ (queried st ++ [commit])%list) as Hin
      by (apply elem_of_app; right; left).
    simpl in Hfill.
    destruct (lookup gitShow commit) as [pr|e|reason|code];
      injection Hfill as <- <-; simpl; (split; [done|]).
    + split; [by apply insert_subseteq|]. split; [done|]. split; [done|].
      split; [|done]. intros _. split.
      * split; [done|]. simpl. intros c. rewrite elem_of_app, list_elem_of_singleton.
        destruct (decide (c = commit)) as [->|Hne].
        -- rewrite lookup_insert_eq. split; eauto.
        -- rewrite lookup_insert_ne by done. rewrite Hq. split; [|auto].
           by intros [?|?].
      * simpl. rewrite lookup_insert_eq. eauto.
    + done.
    + done.
    + done.
Qed.

Lemma BlamePR_step_spec (st st' : blame) (text : string) (r : result unit) :
  live st -> BlamePR_step gitShow st text = (st', r) ->
  NoDup (queried st')
  /\ cached st ⊆ cached st'
  /\ (forall c, c ∈ queried st' ->
        c ∈ queried st \/ exists src, parse_line text = Some (c, src))
  /\ match r with
     | Ok _ =>
         live st'
         /\ (exists o, printed st' = (printed st ++ [o])%list /\ shows (cached st') text o)
         /\ (forall commit src, parse_line text = Some (commit, src) ->
               commit ∈ queried st')
     | _ => printed st' = printed st
     end.
Proof.
  intros Hlive Hstep. rewrite BlamePR_step_unfold in Hstep.
  destruct (parse_line text) as [[commit src]|] eqn:Hparse.
  - destruct (BlamePR_fill gitShow st commit) as [st1 r1] eqn:Hfill.
    destruct (BlamePR_fill_spec st st1 commit r1 Hlive Hfill)
      as (Hnd & Hsub & Hpr & Hq & Hok & Hnew).
    assert (forall c, c ∈ queried st1 ->
              c ∈ queried st \/ exists src, parse_line text = Some (c, src)) as Hq'.
    { intros c [?| ->]%Hq; eauto. }
    rewrite Hparse in Hq'.
    destruct r1 as [[]|e|reason|code]; injection Hstep as <- <-;
      (split; [done|]); (split; [done|]); (split; [done|]); [|done..].
    destruct (Hok eq_refl) as [Hlive1 [label Hlabel]].
    split; [exact Hlive1|]. split.
    + eexists. split; [simpl; by rewrite Hpr|].
      exists commit, src, label. repeat split; try done.
      unfold blame_line. by rewrite Hlabel.
    + intros commit' src' [= <- <-].
      destruct Hlive1 as [_ Hq1]. apply Hq1. simpl. eauto.
  - injection Hstep as <- <-. destruct Hlive as [Hnd Hq].
    repeat split; try done. eauto.
Qed.

Lemma shows_weaken (c1 c2 : gmap string string) (text : string) (o : output) :
  c1 ⊆ c2 -> shows c1 text o -> shows c2 text o.
Proof.
  intros Hsub (commit & src & label & Hp & Hl & -> & Hlab).
  exists commit, src, label.
  assert (c2 !! commit = Some label) as Hl2 by (by eapply lookup_weaken).
  repeat split; try done. apply blame_line_ext. congruence.
Qed.

(** The loop from a state between two lines. *)
Lemma BlamePR_loop_spec (lines : list string) (st st' : blame) (r : result unit) :
  live st -> BlamePR_loop gitShow lines st = (st', r) ->
  NoDup (queried st')
  /\ cached st ⊆ cached st'
  /\ (forall c, c ∈ queried st' ->
        c ∈ queried st
        \/ exists text src, text ∈ lines /\ parse_line text = Some (c, src))
  /\ (exists outs,
        printed st' = (printed st ++ outs)%list
        /\ Forall2 (shows (cached st')) (take (length outs) lines) outs
        /\ (r = Ok () -> length outs = length lines))
  /\ (r = Ok () ->
        live st'
        /\ forall text commit src, text ∈ lines ->
             parse_line text = Some (commit, src) -> commit ∈ queried st').
Proof.
  revert st. induction lines as [|text rest IH]; intros st Hlive Hloop.
  - injection Hloop as <- <-. pose proof Hlive as [Hnd Hq].
    split; [done|]. split; [done|]. split; [eauto|]. split.
    + exists []. rewrite app_nil_r. repeat split; constructor.
    + intros _. split; [done|].
      intros text commit src Hin. by apply not_elem_of_nil in Hin.
  - cbn [BlamePR_loop] in Hloop.
    destruct (BlamePR_step gitShow st text) as [st1 r1] eqn:Hstep.
    destruct (BlamePR_step_spec st st1 text r1 Hlive Hstep)
      as (Hnd1 & Hsub1 & Hq1 & Hr1).
    assert (forall c, c ∈ queried st1 ->
              c ∈ queried st
              \/ exists t src, t ∈ text :: rest /\ parse_line t = Some (c, src)) as Hq1'.
    { intros c [?|[src Hs]]%Hq1; [by left|]. right. exists text, src.
      split; [left | done]. }
    destruct r1 as [[]|e|reason|code].
    + destruct Hr1 as (Hlive1 & (o & Hpr1 & Hshow) & Hseen).
      destruct (IH st1 Hlive1 Hloop)
        as (Hnd & Hsub & Hq & (outs & Hpr & Hall & Hlen) & Hcov).
      split; [done|]. split; [by etrans|]. split; [|split].
      * intros c [Hin|(t & src & Ht & Hp)]%Hq; [by apply Hq1'|].
        right. exists t, src. split; [by right | done].
      * exists (o :: outs). split; [by rewrite Hpr, Hpr1, <- app_assoc|].
        split; [|intros Hr; simpl; by rewrite Hlen].
        simpl. constructor; [|done]. by eapply shows_weaken.
      * intros Hr. destruct (Hcov Hr) as [Hlive' Hcov']. split; [done|].
        intros t commit src [-> |Hin]%elem_of_cons Hp; [|by eapply Hcov'].
        assert (commit ∈ queried st1) as Hin1 by eauto.
        destruct Hlive1 as [_ Hk1]. apply Hk1 in Hin1 as [label Hlabel].
        destruct Hlive' as [_ Hk']. apply Hk'.
        exists label. by eapply lookup_weaken.
    + injection Hloop as <- <-.
      split; [done|]. split; [done|]. split; [done|]. split; [|done].
      exists []. rewrite app_nil_r. split; [exact Hr1|]. split; [constructor | done].
    + injection Hloop as <- <-.
      split; [done|]. split; [done|]. split; [done|]. split; [|done].
      exists []. rewrite app_nil_r. split; [exact Hr1|]. split; [constructor | done].
    + injection Hloop as <- <-.
      split; [done|]. split; [done|]. split; [done|]. split; [|done].
      exists []. rewrite app_nil_r. split; [exact Hr1|]. split; [constructor | done].
Qed.

End BlameFacts.

(** C1.  In one run of [BlamePR] over the lines of the blame stream, the
    arguments of the calls of [lookup] are pairwise distinct and are
    commits of lines of the stream: [lookup] is called at most once for
    each commit, however many lines carry it.  The outputs are, in order,
    those of the first lines of the stream, each with the label the final
    [cached] holds for its commit, so that two output lines of the same
    commit show the same label.  When the run returns without error, every
    line has its output and every commit of the stream was looked up
    (exactly once). *)
Theorem BlamePR_lookup_once (gitShow : string -> string + error)
    (gitBlame : list string -> list string + error)
    (argv lines : list string) :
  gitBlame ("blame" :: "--first-parent" :: argv) = inl lines ->
  let st := (BlamePR gitShow gitBlame argv).1 in
  let r := (BlamePR gitShow gitBlame argv).2 in
  NoDup (queried st)
  /\ (forall c, c ∈ queried st ->
        exists text src, text ∈ lines /\ parse_line text = Some (c, src))
  /\ Forall2 (shows (cached st)) (take (length (printed st)) lines) (printed st)
  /\ (forall i j ti tj oi oj commit si sj,
        lines !! i = Some ti -> lines !! j = Some tj ->
        printed st !! i = Some oi -> printed st !! j = Some oj ->
        parse_line ti = Some (commit, si) -> parse_line tj = Some (commit, sj) ->
        label_of oi = label_of oj)
  /\ (r = Ok () ->
        length (printed st) = length lines
        /\ forall text commit src, text ∈ lines ->
             parse_line text = Some (commit, src) -> commit ∈ queried st).
Proof.
  intros Hblame st r. subst st r. unfold BlamePR. rewrite Hblame.
  destruct (BlamePR_loop gitShow lines blame_init) as [st r] eqn:Hloop.
  destruct (BlamePR_loop_spec gitShow lines blame_init st r (live_init) Hloop)
    as (Hnd & _ & Hq & (outs & Hpr & Hall & Hlen) & Hcov).
  simpl in Hpr. subst outs. simpl.
  split; [done|]. split; [|split; [done|split]].
  - intros c [Hin|?]%Hq; [|done]. by apply not_elem_of_nil in Hin.
  - intros i j ti tj oi oj commit si sj Hi Hj Hoi Hoj Hpi Hpj.
    assert (forall k t o s, lines !! k = Some t -> printed st !! k = Some o ->
              parse_line t = Some (commit, s) ->
              cached st !! commit = Some (label_of o)) as Hlab.
    { intros k t o s Hk Ho Hp.
      assert (take (length (printed st)) lines !! k = Some t) as Hk'.
      { rewrite lookup_take_lt; [done|]. by eapply lookup_lt_Some. }
      destruct (Forall2_lookup_lr _ _ _ _ _ _ Hall Hk' Ho)
        as (c' & s' & label & Hp' & Hl & _ & Hlo).
      rewrite Hp in Hp'. injection Hp' as <- <-. by rewrite Hlo. }
    pose proof (Hlab i ti oi si Hi Hoi Hpi) as H1.
    pose proof (Hlab j tj oj sj Hj Hoj Hpj) as H2.
    congruence.
  - intros Hr. destruct (Hcov Hr) as [_ Hcov']. split; [by apply Hlen | done].
Qed.

Lemma BlamePR_lookup_once_witness :
  let lines := replicate 100 "deadbeef line of text" in
  let st := (BlamePR show_deadbeef (fun _ => inl lines) ["main.go"]).1 in
  NoDup (queried st)
  /\ queried st = ["deadbeef"]
  /\ length (printed st) = 100
  /\ Forall (fun o => label_of o = "deadbeef") (printed st).
Proof.
  intros lines st.
  pose proof (BlamePR_lookup_once show_deadbeef (fun _ => inl lines) ["main.go"]
                lines eq_refl) as (Hnd & _).
  split; [exact Hnd|]. split; [vm_compute; reflexivity|].
  split; [vm_compute; reflexivity|].
  vm_compute. repeat constructor.
Defined.

(** C8.  For a line whose commit is not cached yet: when the query of
    [lookup] succeeds and its output does not match the merge pattern, the
    commit is labelled with its own hash, the line is printed and the loop
    goes on with the rest of the stream; when the command of the query
    fails, the loop stops there and returns that error. *)
Theorem BlamePR_lookup_failure_asymmetry (gitShow : string -> string + error)
    (st : blame) (text commit src : string) (rest : list string) :
  parse_line text = Some (commit, src) ->
  cached st !! commit = None ->
  (forall out,
      gitShow commit = inl out ->
      Regexp.mergeSummary_FindStringSubmatch out = [] ->
      lookup gitShow commit = Ok commit
      /\ BlamePR_loop gitShow (text :: rest) st =
         BlamePR_loop gitShow rest
           (mkBlame (<[commit := commit]> (cached st))
              (printed st ++
                 [Printf ("%-" ++ Strconv.Itoa (Z.of_nat (String.length commit))
                            ++ "s %s" ++ newline) commit src])%list
              (queried st ++ [commit])%list))
  /\ (forall err,
        gitShow commit = inr err ->
        lookup gitShow commit = Err err
        /\ BlamePR_loop gitShow (text :: rest) st =
           (mkBlame (cached st) (printed st) (queried st ++ [commit])%list, Err err)).
Proof.
  intros Hparse Hc. split.
  - intros out Hout Hno.
    assert (lookup gitShow commit = Ok commit) as Hlk
      by (unfold lookup; by rewrite Hout, Hno).
    split; [done|].
    cbn [BlamePR_loop]. rewrite BlamePR_step_unfold, Hparse.
    unfold BlamePR_fill. rewrite Hc, Hlk. cbn [cached printed queried].
    unfold BlamePR_print, blame_line. cbn [cached printed queried].
    rewrite lookup_insert_eq. simpl default.
    by rewrite Nat.ltb_irrefl.
  - intros err Herr.
    assert (lookup gitShow commit = Err err) as Hlk
      by (unfold lookup; by rewrite Herr).
    split; [done|].
    cbn [BlamePR_loop]. rewrite BlamePR_step_unfold, Hparse.
    unfold BlamePR_fill. by rewrite Hc, Hlk.
Qed.

Lemma BlamePR_lookup_failure_asymmetry_witness :
  BlamePR_loop show_sample ["1a2b3c func main() {"; "4d5e6f   run()"] blame_init
  = BlamePR_loop show_sample ["4d5e6f   run()"]
      (mkBlame {[ "1a2b3c" := "1a2b3c" ]}
         [Printf ("%-6s %s" ++ newline) "1a2b3c" "func main() {"] ["1a2b3c"])
  /\ BlamePR_loop show_sample ["000000 x"; "4d5e6f   run()"] blame_init
     = (mkBlame ∅ [] ["000000"], Err (ExecError "exit status 128")).
Proof.
  split.
  - apply (proj1 (BlamePR_lookup_failure_asymmetry show_sample blame_init
      "1a2b3c func main() {" "1a2b3c" "func main() {" ["4d5e6f   run()"]
      eq_refl eq_refl) "1a2b3c Fix the parser" eq_refl eq_refl).
  - apply (proj2 (BlamePR_lookup_failure_asymmetry show_sample blame_init
      "000000 x" "000000" "x" ["4d5e6f   run()"]
      eq_refl eq_refl) (ExecError "exit status 128") eq_refl).
Defined.

(** C10.  [BlamePR] cuts a line at its first space only: for a commit
    without a space, the line [commit ++ " " ++ src] gives the two parts
    [commit] and [src], and [src] is printed as it is, whatever spaces it
    holds.  A line without any space has no second part: reading it is out
    of range, and the loop ends in a panic on that line. *)
Theorem BlamePR_first_space_only (gitShow : string -> string + error)
    (st : blame) (commit src text : string) (rest : list string) :
  Index commit " " = None ->
  Index text " " = None ->
  (SplitN (commit ++ " " ++ src) " " 2 = [commit; src]
   /\ BlamePR_step gitShow st (commit ++ " " ++ src) =
      match BlamePR_fill gitShow st commit with
      | (st', Ok _) =>
          (mkBlame (cached st')
             (printed st' ++ [blame_line (cached st') commit src])%list
             (queried st'), Ok ())
      | (st', r) => (st', r)
      end)
  /\ SplitN text " " 2 = [text]
  /\ BlamePR_step gitShow st text = (st, Panic indexOutOfRange)
  /\ BlamePR_loop gitShow (text :: rest) st = (st, Panic indexOutOfRange).
Proof.
  intros Hcommit Htext.
  pose proof (StringFacts.SplitN_first_space commit src Hcommit) as Hsplit.
  pose proof (StringFacts.SplitN_no_space text Htext) as Hone.
  assert (BlamePR_step gitShow st text = (st, Panic indexOutOfRange)) as Hstep
    by (unfold BlamePR_step; by rewrite Hone).
  split; [split; [done|]|].
  - unfold BlamePR_step. by rewrite Hsplit.
  - split; [done|]. split; [done|]. cbn [BlamePR_loop]. by rewrite Hstep.
Qed.

Lemma BlamePR_first_space_only_witness :
  SplitN ("1a2b3c" ++ " " ++ "  return a + b") " " 2 = ["1a2b3c"; "  return a + b"]
  /\ BlamePR_loop show_sample ["1a2b3c"; "4d5e6f   run()"] blame_init
     = (blame_init, Panic indexOutOfRange)
  /\ BlamePR_loop show_sample [""] blame_init = (blame_init, Panic indexOutOfRange).
Proof.
  pose proof (BlamePR_first_space_only show_sample blame_init
    "1a2b3c" "  return a + b" "1a2b3c" ["4d5e6f   run()"] eq_refl eq_refl)
    as [[H1 _] (_ & _ & H2)].
  pose proof (BlamePR_first_space_only show_sample blame_init
    "1a2b3c" "" "" [] eq_refl eq_refl) as [_ (_ & _ & H3)].
  split; [exact H1|]. split; [exact H2 | exact H3].
Defined.


(** * Further properties *)

(** ** Splitting and joining at a one-byte separator *)

Module SplitFacts.
Import StringFacts.

Lemma list_ascii_append (a b : string) :
  list_ascii_of_string (a ++ b) = (list_ascii_of_string a ++ list_ascii_of_string b)%list.
Proof. induction a as [|c a IH]; unfold_append; simpl; [done | by rewrite IH]. Qed.

Lemma Index_char_append_None (c : ascii) (a b : string) :
  Index a (String c "") = None -> Index b (String c "") = None ->
  Index (a ++ b) (String c "") = None.
Proof.
  rewrite !Index_char_None, list_ascii_append, not_elem_of_app. auto.
Qed.

Lemma Index_char_append_inv (c : ascii) (a b : string) :
  Index (a ++ b) (String c "") = None ->
  Index a (String c "") = None /\ Index b (String c "") = None.
Proof. by rewrite !Index_char_None, list_ascii_append, not_elem_of_app. Qed.

Lemma Split_unfold (s sep : string) : Split s sep = cuts (String.length s) s sep.
Proof. reflexivity. Qed.

Lemma Split_char_none (s sep : string) : Index s sep = None -> Split s sep = [s].
Proof.
  intros H. rewrite Split_unfold. destruct (String.length s); cbn [cuts]; [done|].
  by rewrite H.
Qed.

Lemma Split_char_cons (c : ascii) (a b : string) :
  Index a (String c "") = None ->
  Split (a ++ String c b) (String c "") = a :: Split b (String c "").
Proof.
  intros Ha. rewrite !Split_unfold, length_append. cbn [String.length].
  rewrite Nat.add_succ_r. cbn [cuts].
  rewrite (Index_char_app c a b Ha), slice_to_app, slice_from_app_char.
  f_equal. apply cuts_enough; [done | lia | lia].
Qed.

Lemma Join_cons_char (c : ascii) (l l' : string) (ls : list string) :
  Join (l :: l' :: ls) (String c "") = l ++ String c (Join (l' :: ls) (String c "")).
Proof. reflexivity. Qed.

(** Joining pieces free of the separator and splitting again gives the
    pieces back. *)
Lemma Split_Join (c : ascii) (ls : list string) :
  ls <> [] -> Forall (fun l => Index l (String c "") = None) ls ->
  Split (Join ls (String c "")) (String c "") = ls.
Proof.
  induction ls as [|l ls IH]; [done|]. intros _ [Hl Hls]%Forall_cons.
  destruct ls as [|l' ls].
  - simpl. by apply Split_char_none.
  - rewrite Join_cons_char, Split_char_cons by done. f_equal. by apply IH.
Qed.

Lemma TrimSuffix_app (x suf : string) : TrimSuffix (x ++ suf) suf = x.
Proof.
  unfold TrimSuffix.
  assert (HasSuffix (x ++ suf) suf = true) as -> by (apply HasSuffix_spec; eauto).
  rewrite length_append.
  replace (String.length x + String.length suf - String.length suf)
    with (String.length x) by lia.
  apply slice_to_app.
Qed.

Lemma TrimSuffix_id (s suf : string) : HasSuffix s suf = false -> TrimSuffix s suf = s.
Proof. unfold TrimSuffix. by intros ->. Qed.

Lemma TrimPrefix_app (pre x : string) : TrimPrefix (pre ++ x) pre = x.
Proof.
  unfold TrimPrefix.
  assert (HasPrefix (pre ++ x) pre = true) as -> by (apply HasPrefix_spec; eauto).
  apply slice_from_app.
Qed.

End SplitFacts.

(** ** Remote reference index: reading a listing back *)

Section ListingFacts.
Import StringFacts SplitFacts.

Lemma line_fields (h r : string) :
  plain h -> plain r -> Split (h ++ tab ++ r) tab = [h; r].
Proof.
  intros [Hh _] [Hr _]. unfold tab in *.
  change (String "009" "" ++ r) with (String "009" r).
  rewrite (Split_char_cons "009" h r Hh). by rewrite (Split_char_none r _ Hr).
Qed.

Lemma line_no_newline (h r : string) :
  plain h -> plain r -> Index (h ++ tab ++ r) newline = None.
Proof.
  intros [_ Hh] [_ Hr]. unfold newline in *.
  apply (Index_char_append_None "010"); [done|].
  by apply (Index_char_append_None "010").
Qed.

Lemma toRefToHash_loop_lines (pairs : list (string * string)) (m : RefToHash) :
  Forall (fun p => plain p.1 /\ plain p.2) pairs ->
  toRefToHash_loop ((fun p => p.1 ++ tab ++ p.2) <$> pairs) m = Ok (assignAll pairs m).
Proof.
  revert m. induction pairs as [|[h r] pairs IH]; intros m Hall; [done|].
  apply Forall_cons in Hall as [[Hh Hr] Hall]. simpl in Hh, Hr.
  cbn [fmap list_fmap toRefToHash_loop fst snd].
  unfold toRefToHash_step. cbn [fst snd]. rewrite (line_fields h r Hh Hr).
  cbn. by apply IH.
Qed.

Lemma toRefToHash_lsRemoteText (pairs : list (string * string)) :
  pairs <> [] ->
  Forall (fun p => plain p.1 /\ plain p.2) pairs ->
  toRefToHash (lsRemoteText pairs) = Ok (assignAll pairs ∅).
Proof.
  intros Hne Hall. unfold toRefToHash, lsRemoteText.
  rewrite TrimSuffix_app, (Split_Join "010").
  - by apply toRefToHash_loop_lines.
  - by destruct pairs.
  - apply Forall_fmap. eapply Forall_impl; [exact Hall|].
    intros [h r] [Hh Hr]. by apply line_no_newline.
Qed.

Lemma assignAll_lookup_last (l1 l2 : list (string * string)) (h r : string)
    (m : RefToHash) :
  r ∉ l2.*2 -> assignAll (l1 ++ (h, r) :: l2) m !! r = Some h.
Proof.
  unfold assignAll. rewrite foldl_app. cbn [foldl fst snd].
  generalize (foldl (fun m p => <[p.2 := p.1]> m) m l1). intros m1.
  assert (<[r := h]> m1 !! r = Some h) as Hm by apply lookup_insert_eq.
  revert Hm. generalize (<[r := h]> m1). clear m1.
  induction l2 as [|[h' r'] l2 IH]; intros m2 Hm Hnot; [done|].
  cbn [fmap list_fmap snd] in Hnot. apply not_elem_of_cons in Hnot as [Hne Hnot].
  cbn [foldl fst snd]. apply IH; [|done]. by rewrite lookup_insert_ne.
Qed.

Lemma assignAll_lookup_other (pairs : list (string * string)) (r : string)
    (m : RefToHash) :
  r ∉ pairs.*2 -> assignAll pairs m !! r = m !! r.
Proof.
  revert m. induction pairs as [|[h' r'] pairs IH]; intros m Hnot; [done|].
  cbn [fmap list_fmap snd] in Hnot. apply not_elem_of_cons in Hnot as [Hne Hnot].
  unfold assignAll. cbn [foldl fst snd]. fold (assignAll pairs (<[r' := h']> m)).
  rewrite IH by done. by rewrite lookup_insert_ne.
Qed.

Lemma assignAll_size (pairs : list (string * string)) (m : RefToHash) :
  NoDup pairs.*2 -> (forall r, r ∈ pairs.*2 -> m !! r = None) ->
  size (assignAll pairs m) = length pairs + size m.
Proof.
  revert m. induction pairs as [|[h r] pairs IH]; intros m Hnd Hfresh; [done|].
  cbn [fmap list_fmap snd] in Hnd, Hfresh. apply NoDup_cons in Hnd as [Hr Hnd].
  unfold assignAll. cbn [foldl fst snd]. fold (assignAll pairs (<[r := h]> m)).
  rewrite IH; [|done|].
  - rewrite map_size_insert_None; [simpl; lia|]. apply Hfresh. left.
  - intros r' Hin. rewrite lookup_insert_ne; [apply Hfresh; by right|].
    intros ->. done.
Qed.

End ListingFacts.

(** X1.  Reading back a listing: for a non-empty list of (hash, reference)
    pairs written one per line as [hash<TAB>ref] with a final line feed,
    where hashes and references hold no tab and no line feed and the
    references are pairwise distinct, [toRefToHash] returns a table with
    exactly one entry per line, and a reference maps to a hash exactly when
    the pair is in the list. *)
Theorem toRefToHash_reads_listing (pairs : list (string * string)) :
  pairs <> [] ->
  Forall (fun p => plain p.1 /\ plain p.2) pairs ->
  NoDup pairs.*2 ->
  exists table,
    toRefToHash (lsRemoteText pairs) = Ok table
    /\ size table = length pairs
    /\ forall h r, table !! r = Some h <-> (h, r) ∈ pairs.
Proof.
  intros Hne Hall Hnd. exists (assignAll pairs ∅).
  split; [by apply toRefToHash_lsRemoteText|]. split.
  - rewrite assignAll_size; [by rewrite map_size_empty, Nat.add_0_r | done |].
    intros r _. apply lookup_empty.
  - intros h r. split.
    + intros Hl. destruct (decide (r ∈ pairs.*2)) as [Hin|Hnot].
      * apply list_elem_of_fmap in Hin as ([h' r'] & -> & Hin). simpl in *.
        apply list_elem_of_split in Hin as (l1 & l2 & ->).
        rewrite assignAll_lookup_last in Hl.
        -- injection Hl as <-. apply elem_of_app. right. left.
        -- rewrite fmap_app in Hnd. apply NoDup_app in Hnd as (_ & _ & Hnd).
           cbn [fmap list_fmap snd] in Hnd. by apply NoDup_cons in Hnd as [? _].
      * rewrite assignAll_lookup_other, lookup_empty in Hl; done.
    + intros Hin. apply list_elem_of_split in Hin as (l1 & l2 & ->).
      apply assignAll_lookup_last.
      rewrite fmap_app in Hnd. apply NoDup_app in Hnd as (_ & _ & Hnd).
      cbn [fmap list_fmap snd] in Hnd. by apply NoDup_cons in Hnd as [? _].
Qed.

Lemma toRefToHash_reads_listing_witness :
  exists table,
    toRefToHash (lsRemoteText [("abc123", "refs/heads/main"); ("abc123", "refs/pull/42/head");
                               ("fff000", "refs/tags/v1")]) = Ok table
    /\ size table = 3
    /\ forall h r, table !! r = Some h <->
         (h, r) ∈ [("abc123", "refs/heads/main"); ("abc123", "refs/pull/42/head");
                   ("fff000", "refs/tags/v1")].
Proof.
  apply (toRefToHash_reads_listing
    [("abc123", "refs/heads/main"); ("abc123", "refs/pull/42/head");
     ("fff000", "refs/tags/v1")]).
  - discriminate.
  - repeat constructor.
  - apply (bool_decide_unpack (NoDup _)). vm_compute. exact I.
Defined.

(** X2.  When a reference is listed more than once, the last line wins:
    the table maps it to the hash of the last line that names it. *)
Theorem toRefToHash_last_line_wins (l1 l2 : list (string * string)) (h r : string) :
  Forall (fun p => plain p.1 /\ plain p.2) (l1 ++ (h, r) :: l2) ->
  r ∉ l2.*2 ->
  exists table,
    toRefToHash (lsRemoteText (l1 ++ (h, r) :: l2)) = Ok table
    /\ table !! r = Some h.
Proof.
  intros Hall Hnot. exists (assignAll (l1 ++ (h, r) :: l2) ∅). split.
  - apply toRefToHash_lsRemoteText; [by destruct l1 | done].
  - by apply assignAll_lookup_last.
Qed.

Lemma toRefToHash_last_line_wins_witness :
  exists table,
    toRefToHash (lsRemoteText [("aaa111", "refs/heads/main"); ("bbb222", "refs/heads/dev");
                               ("ccc333", "refs/heads/main")]) = Ok table
    /\ table !! "refs/heads/main" = Some "ccc333".
Proof.
  apply (toRefToHash_last_line_wins
    [("aaa111", "refs/heads/main"); ("bbb222", "refs/heads/dev")] []
    "ccc333" "refs/heads/main").
  - repeat constructor.
  - apply not_elem_of_nil.
Defined.

(** X3.  One final line feed makes no difference: a listing that does not
    end in a line feed is read like the same listing with a line feed
    added. *)
Theorem toRefToHash_trailing_newline (b : string) :
  HasSuffix b newline = false ->
  toRefToHash (b ++ newline) = toRefToHash b.
Proof.
  intros H. unfold toRefToHash.
  by rewrite SplitFacts.TrimSuffix_app, SplitFacts.TrimSuffix_id.
Qed.

Lemma toRefToHash_trailing_newline_witness :
  toRefToHash (("abc123" ++ tab ++ "refs/heads/main") ++ newline)
  = toRefToHash ("abc123" ++ tab ++ "refs/heads/main").
Proof.
  apply (toRefToHash_trailing_newline ("abc123" ++ tab ++ "refs/heads/main")).
  reflexivity.
Defined.

(** ** Repository coordinates *)

(** X4.  The host name of the remote is cut at its dots: for a host made of
    two or more dot-free labels the space key is the first label and the
    domain is the last two labels joined by a dot.  With exactly two
    labels the first one is thus part of both. *)
Theorem extractSpaceKeyAndDomain_labels (label : string) (labels : list string) :
  1 <= length labels ->
  Forall (fun l => Index l "." = None) (label :: labels) ->
  extractSpaceKeyAndDomain (Join (label :: labels) ".")
  = Ok (label, Join (drop (length labels - 1) (label :: labels)) ".").
Proof.
  intros Hlen Hall. unfold extractSpaceKeyAndDomain.
  rewrite (SplitFacts.Split_Join "." (label :: labels)) by done.
  cbn [at_index lookup list_lookup mbind result_bind].
  unfold slice_tail. cbn [length].
  destruct (Z.ltb_spec (Z.of_nat (S (length labels)) - 2) 0) as [|_]; [lia|].
  destruct (Z.ltb_spec (Z.of_nat (S (length labels)))
              (Z.of_nat (S (length labels)) - 2)) as [|_]; [lia|].
  cbn [orb mbind result_bind].
  replace (Z.to_nat (Z.of_nat (S (length labels)) - 2)) with (length labels - 1) by lia.
  done.
Qed.

Lemma extractSpaceKeyAndDomain_labels_witness :
  extractSpaceKeyAndDomain "myspace.git.backlog.jp" = Ok ("myspace", "backlog.jp")
  /\ extractSpaceKeyAndDomain "backlog.jp" = Ok ("backlog", "backlog.jp").
Proof.
  split.
  - apply (extractSpaceKeyAndDomain_labels "myspace" ["git"; "backlog"; "jp"]).
    + simpl. lia.
    + repeat constructor.
  - apply (extractSpaceKeyAndDomain_labels "backlog" ["jp"]).
    + simpl. lia.
    + repeat constructor.
Defined.

(** X5.  [extractSpaceKeyAndDomain] panics, with slice bounds out of range,
    exactly on the hosts without a dot (the empty host among them); on
    every other host it returns. *)
Theorem extractSpaceKeyAndDomain_panics_without_dot (host : string) :
  (extractSpaceKeyAndDomain host = Panic sliceOutOfRange <-> Index host "." = None)
  /\ (Index host "." <> None ->
        exists spaceKey domain, extractSpaceKeyAndDomain host = Ok (spaceKey, domain)).
Proof.
  unfold extractSpaceKeyAndDomain.
  pose proof (StringFacts.Split_single host "." ltac:(done)) as Hs.
  destruct (StringFacts.Split_head host ".") as (p & ps & E). rewrite E in *.
  cbn [at_index lookup list_lookup mbind result_bind]. unfold slice_tail.
  destruct ps as [|q ps]; cbn [length].
  - change (Z.of_nat 1 - 2 <? 0)%Z with true.
    cbn [orb mbind result_bind].
    split; [|intros Hi; destruct Hi; by apply Hs].
    split; [intros _; by apply Hs | done].
  - destruct (Z.ltb_spec (Z.of_nat (S (S (length ps))) - 2) 0) as [|_]; [lia|].
    destruct (Z.ltb_spec (Z.of_nat (S (S (length ps))))
                (Z.of_nat (S (S (length ps))) - 2)) as [|_]; [lia|].
    cbn [orb mbind result_bind]. split; [|eauto].
    split; [done|]. intros Hi%Hs. discriminate Hi.
Qed.

(** X6.  The path of the remote gives project key and repository name:
    for a project key and a name without slash, the path
    [/git/<key>/<name>.git] of the https form gives [(key, name)]; so does
    the path [/<key>/<name>.git] of the ssh form when the key does not
    begin with [git]. *)
Theorem extractProjectKeyAndRepoName_paths (key name : string) :
  Index key "/" = None ->
  Index name "/" = None ->
  extractProjectKeyAndRepoName ("/git" ++ "/" ++ key ++ "/" ++ name ++ ".git")
    = Ok (key, name)
  /\ (HasPrefix key "git" = false ->
        extractProjectKeyAndRepoName ("/" ++ key ++ "/" ++ name ++ ".git")
        = Ok (key, name)).
Proof.
  intros Hkey Hname.
  assert (Index (name ++ ".git") "/" = None) as Hfile
    by (apply (SplitFacts.Index_char_append_None "/"); done).
  assert (Split ("/" ++ key ++ "/" ++ name ++ ".git") "/" = [""; key; name ++ ".git"])
    as Hsplit.
  { change ("/" ++ key ++ "/" ++ name ++ ".git")
      with ("" ++ String "/" (key ++ String "/" (name ++ ".git"))).
    rewrite (SplitFacts.Split_char_cons "/" "") by done.
    rewrite (SplitFacts.Split_char_cons "/" key) by done.
    by rewrite (SplitFacts.Split_char_none _ _ Hfile). }
  split.
  - unfold extractProjectKeyAndRepoName.
    rewrite SplitFacts.TrimPrefix_app, Hsplit. cbn.
    by rewrite SplitFacts.TrimSuffix_app.
  - intros Hgit. unfold extractProjectKeyAndRepoName.
    assert (TrimPrefix ("/" ++ key ++ "/" ++ name ++ ".git") "/git"
            = "/" ++ key ++ "/" ++ name ++ ".git") as ->.
    { unfold TrimPrefix.
      assert (HasPrefix ("/" ++ key ++ "/" ++ name ++ ".git") "/git" = false) as ->;
        [|done].
      apply not_true_is_false. intros [t Ht]%StringFacts.HasPrefix_spec.
      apply not_true_iff_false in Hgit. apply Hgit.
      apply StringFacts.HasPrefix_spec.
      change ("/" ++ key ++ "/" ++ name ++ ".git")
        with (String "/" (key ++ "/" ++ name ++ ".git")) in Ht.
      change ("/git" ++ t) with (String "/" ("git" ++ t)) in Ht.
      injection Ht as Ht. clear Hsplit Hfile Hgit.
      do 3 (destruct key as [|? key]; [discriminate Ht|];
            cbv [String.append] in Ht; fold String.append in Ht;
            injection Ht as -> Ht).
      by exists key. }
    rewrite Hsplit. cbn. by rewrite SplitFacts.TrimSuffix_app.
Qed.

Lemma extractProjectKeyAndRepoName_paths_witness :
  extractProjectKeyAndRepoName "/git/PROJ/app.git" = Ok ("PROJ", "app")
  /\ extractProjectKeyAndRepoName "/PROJ/app.git" = Ok ("PROJ", "app").
Proof.
  destruct (extractProjectKeyAndRepoName_paths "PROJ" "app" eq_refl eq_refl)
    as [H1 H2].
  split; [exact H1 | exact (H2 eq_refl)].
Defined.

(** X7.  A path of the ssh form whose project key begins with [git] is
    mistaken for the https form: the prefix [/git] is cut out of the key,
    the path is left with two parts only and the function panics on the
    missing third part. *)
Theorem extractProjectKeyAndRepoName_git_key_panics (rest name : string) :
  Index rest "/" = None ->
  Index name "/" = None ->
  extractProjectKeyAndRepoName ("/" ++ ("git" ++ rest) ++ "/" ++ name ++ ".git")
  = Panic indexOutOfRange.
Proof.
  intros Hrest Hname. unfold extractProjectKeyAndRepoName.
  change ("/" ++ ("git" ++ rest) ++ "/" ++ name ++ ".git")
    with ("/git" ++ (rest ++ String "/" (name ++ ".git"))).
  rewrite SplitFacts.TrimPrefix_app.
  rewrite (SplitFacts.Split_char_cons "/" rest) by done.
  rewrite SplitFacts.Split_char_none; [done|].
  apply (SplitFacts.Index_char_append_None "/"); done.
Qed.

Lemma extractProjectKeyAndRepoName_git_key_panics_witness :
  extractProjectKeyAndRepoName "/github/app.git" = Panic indexOutOfRange.
Proof.
  apply (extractProjectKeyAndRepoName_git_key_panics "hub" "app"); reflexivity.
Defined.


(** ** Outcomes of the selector and of the matcher *)

Section OutcomeFacts.

Lemma Update_settled (ids : list string) (p : prSelector) (msg : Msg) :
  settled ids p -> settled ids (Update p msg).1.
Proof.
  intros (Hc & Hb & Hs).
  split; [by rewrite Update_choices|]. split; [by apply Update_in_bounds|].
  destruct msg as [key|]; [|done].
  unfold in_bounds in Hb. rewrite Hc in Hb.
  key_cases key; simpl; try done.
  - by destruct (cursor p <? _)%Z.
  - by destruct (cursor p <? _)%Z.
  - by destruct (cursor p >? _)%Z.
  - by destruct (cursor p >? _)%Z.
  - by right.
Qed.

Lemma eventLoop_outcome (ids : list string) (p : prSelector) (msgs : list Msg)
    (closed : string) :
  settled ids p ->
  (exists final, (eventLoop p msgs closed).2 = Ok final /\ settled ids final)
  \/ (eventLoop p msgs closed).2 = Err (TeaError closed).
Proof.
  revert p. induction msgs as [|msg msgs IH]; intros p Hp; cbn [eventLoop].
  - by right.
  - pose proof (Update_settled ids p msg Hp) as Hp'.
    destruct (Update p msg) as [p' [[]|]]; simpl in Hp'.
    + left. by exists p'.
    + specialize (IH p' Hp'). by destruct (eventLoop p' msgs closed) as [tr r].
Qed.


Lemma eventLoop_down_enter (p : prSelector) (k : nat) (rest : list Msg)
    (closed : string) :
  in_bounds p ->
  exists final,
    (eventLoop p (replicate k (KeyMsg "j") ++ KeyMsg "enter" :: rest) closed).2 = Ok final
    /\ selected final
       = Z.min (cursor p + Z.of_nat k) (Z.of_nat (length (choices p)) - 1).
Proof.
  revert p. induction k as [|k IH]; intros p Hb; unfold in_bounds in Hb.
  - exists (with_selected p (cursor p)). split; [done|]. simpl. lia.
  - cbn [replicate app eventLoop].
    change (Update p (KeyMsg "j")) with
      (if (cursor p <? Z.of_nat (length (choices p)) - 1)%Z
       then with_cursor p (cursor p + 1) else p, @None Cmd).
    cbn iota.
    destruct (Z.ltb_spec (cursor p) (Z.of_nat (length (choices p)) - 1)) as [Hlt|Hge].
    + destruct (IH (with_cursor p (cursor p + 1))) as (final & Hloop & Hsel).
      { unfold in_bounds. simpl. lia. }
      destruct (eventLoop (with_cursor p (cursor p + 1)) _ closed) as [tr r].
      simpl in *. exists final. split; [done|]. rewrite Hsel. lia.
    + destruct (IH p Hb) as (final & Hloop & Hsel).
      destruct (eventLoop p _ closed) as [tr r].
      simpl in *. exists final. split; [done|]. rewrite Hsel. lia.
Qed.

Lemma settled_init (b : BacklogRepository) (ids : list string) :
  ids <> [] ->
  settled ids (mkSelector ids 0 (-1) (projectKey b ++ "/" ++ repoName b)).
Proof.
  intros Hne. split; [done|]. split; [|by left].
  unfold in_bounds. simpl. destruct ids; [done | simpl; lia].
Qed.

Lemma selectPR_unfold (b : BacklogRepository) (ids : list string) (tty : Terminal) :
  length ids <> 1 ->
  (selectPR b ids tty).2 =
    match (eventLoop (mkSelector ids 0 (-1) (projectKey b ++ "/" ++ repoName b))
             (delivered tty) (failure tty)).2 with
    | Ok final =>
        if (selected final =? -1)%Z then Exit 0 else at_int ids (selected final)
    | Err e => Err e
    | Panic reason => Panic reason
    | Exit c => Exit c
    end.
Proof.
  intros Hlen%Nat.eqb_neq. unfold selectPR, Run. rewrite Hlen.
  by destruct (eventLoop _ (delivered tty) (failure tty)) as [tr r].
Qed.

Lemma at_int_in_range (ids : list string) (i : Z) :
  (0 <= i <= Z.of_nat (length ids) - 1)%Z ->
  exists id, ids !! Z.to_nat i = Some id /\ at_int ids i = Ok id.
Proof.
  intros Hi. unfold at_int, at_index.
  destruct (Z.ltb_spec i 0) as [|_]; [lia|].
  destruct (lookup_lt_is_Some_2 ids (Z.to_nat i)) as [id Hid]; [lia|].
  exists id. by rewrite Hid.
Qed.

End OutcomeFacts.

(** X8.  On a non-empty list of candidates, [selectPR] ends in one of three
    ways whatever the terminal delivers: it returns one of the candidates,
    it leaves the process with exit code 0, or it returns the error of the
    terminal runtime.  In particular it never indexes the list out of
    range. *)
Theorem selectPR_outcomes (b : BacklogRepository) (ids : list string) (tty : Terminal) :
  ids <> [] ->
  (exists id, id ∈ ids /\ (selectPR b ids tty).2 = Ok id)
  \/ (selectPR b ids tty).2 = Exit 0
  \/ (selectPR b ids tty).2 = Err (TeaError (failure tty)).
Proof.
  intros Hne. destruct (decide (length ids = 1)) as [H1|H1].
  - destruct ids as [|id [|? ?]]; try done. left. exists id. split; [left | done].
  - rewrite selectPR_unfold by done.
    destruct (eventLoop_outcome ids _ (delivered tty) (failure tty)
                (settled_init b ids Hne)) as [(final & -> & _ & _ & Hsel)| ->];
      [|by right; right].
    destruct (Z.eqb_spec (selected final) (-1)) as [|Hsel']; [by right; left|].
    destruct Hsel as [|Hsel]; [done|].
    destruct (at_int_in_range ids _ Hsel) as (id & Hid & ->).
    left. exists id. split; [|done]. by eapply list_elem_of_lookup_2.
Qed.

Lemma selectPR_outcomes_witness :
  let r := (selectPR (mkBacklogRepository "refs/heads/feature" (Ok ∅) "PRJ" "app")
              ["7"; "12"] (mkTerminal [KeyMsg "down"; KeyMsg "enter"] "closed")).2 in
  (exists id, id ∈ ["7"; "12"] /\ r = Ok id) \/ r = Exit 0
  \/ r = Err (TeaError "closed").
Proof.
  apply (selectPR_outcomes (mkBacklogRepository "refs/heads/feature" (Ok ∅) "PRJ" "app")
           ["7"; "12"] (mkTerminal [KeyMsg "down"; KeyMsg "enter"] "closed")).
  discriminate.
Defined.

(** X9.  With two or more candidates, pressing the down key [k] times and
    then enter returns the candidate at index [k], or the last candidate
    when [k] is beyond the list: the cursor stops at the last row. *)
Theorem selectPR_down_then_enter (b : BacklogRepository) (ids : list string)
    (k : nat) (rest : list Msg) (closed : string) :
  2 <= length ids ->
  exists id,
    ids !! Nat.min k (length ids - 1) = Some id
    /\ (selectPR b ids
          (mkTerminal (replicate k (KeyMsg "j") ++ KeyMsg "enter" :: rest) closed)).2
       = Ok id.
Proof.
  intros Hlen. rewrite selectPR_unfold by (simpl; lia). cbn [delivered failure].
  destruct (eventLoop_down_enter
              (mkSelector ids 0 (-1) (projectKey b ++ "/" ++ repoName b)) k rest closed)
    as (final & -> & Hsel).
  { unfold in_bounds. simpl. lia. }
  simpl in Hsel.
  destruct (Z.eqb_spec (selected final) (-1)) as [|_]; [lia|].
  destruct (at_int_in_range ids (selected final)) as (id & Hid & ->); [lia|].
  exists id. split; [|done].
  replace (Nat.min k (length ids - 1)) with (Z.to_nat (selected final)) by lia. done.
Qed.

Lemma selectPR_down_then_enter_witness :
  (selectPR (mkBacklogRepository "refs/heads/feature" (Ok ∅) "PRJ" "app")
     ["9"; "12"; "100"]
     (mkTerminal (replicate 1 (KeyMsg "j") ++ KeyMsg "enter" :: []) "closed")).2 = Ok "12"
  /\ (selectPR (mkBacklogRepository "refs/heads/feature" (Ok ∅) "PRJ" "app")
     ["9"; "12"; "100"]
     (mkTerminal (replicate 5 (KeyMsg "j") ++ KeyMsg "enter" :: []) "closed")).2 = Ok "100".
Proof.
  split.
  - destruct (selectPR_down_then_enter
      (mkBacklogRepository "refs/heads/feature" (Ok ∅) "PRJ" "app")
      ["9"; "12"; "100"] 1 [] "closed") as (id & Hid & H); [simpl; lia|].
    injection Hid as <-. exact H.
  - destruct (selectPR_down_then_enter
      (mkBacklogRepository "refs/heads/feature" (Ok ∅) "PRJ" "app")
      ["9"; "12"; "100"] 5 [] "closed") as (id & Hid & H); [simpl; lia|].
    injection Hid as <-. exact H.
Defined.



(** ** The matcher from the table to the answer *)

Section ResolveFacts.

Variable rangeOrder : RefToHash -> list (string * string).
Hypothesis rangeOrder_entries : forall m, rangeOrder m ≡ₚ map_to_list m.

Lemma extractPRID_form (id : string) :
  extractPRID ("refs/pull/" ++ id ++ "/head") = id.
Proof.
  unfold extractPRID. change refPullRequestPrefix with "refs/pull/".
  change refPullRequestSuffix with "/head".
  by rewrite SplitFacts.TrimPrefix_app, SplitFacts.TrimSuffix_app.
Qed.

Lemma rangeOrder_NoDup (table : RefToHash) : NoDup (rangeOrder table).
Proof. rewrite rangeOrder_entries. apply NoDup_map_to_list. Qed.

Lemma NoDup_all_equal {A : Type} (l : list A) (x : A) :
  NoDup l -> x ∈ l -> (forall y, y ∈ l -> y = x) -> l = [x].
Proof.
  intros Hnd Hin Hall. destruct l as [|a l]; [by apply not_elem_of_nil in Hin|].
  assert (a = x) as -> by (apply Hall; left).
  destruct l as [|a' l]; [done|].
  assert (a' = x) as -> by (apply Hall; right; left).
  apply NoDup_cons in Hnd as [Hnot _]. destruct Hnot. left.
Qed.

Lemma collectPRIDs_single (table : RefToHash) (h pr0 : string) :
  isPRRef pr0 = true -> table !! pr0 = Some h ->
  (forall pr, isPRRef pr = true -> table !! pr = Some h -> pr = pr0) ->
  collectPRIDs h (rangeOrder table) = [extractPRID pr0].
Proof.
  intros Hpr Hl Huniq. rewrite collectPRIDs_spec.
  rewrite (NoDup_all_equal (filter (matches_target h) (rangeOrder table)) (pr0, h)).
  - done.
  - apply NoDup_filter, rangeOrder_NoDup.
  - apply list_elem_of_filter. split; [done|].
    rewrite rangeOrder_entries. by apply elem_of_map_to_list.
  - intros [pr h'] [[Hp Hh] Hin]%list_elem_of_filter. simpl in *. subst h'.
    rewrite rangeOrder_entries in Hin. apply elem_of_map_to_list in Hin.
    by rewrite (Huniq pr Hp Hin).
Qed.

End ResolveFacts.

(** X11.  With a table from the remote, [findPullRequestIDFromRemote] ends
    in one of five ways and never panics: the error for a missing branch,
    the error for a missing pull request, exit code 0, the error of the
    terminal runtime, or the identifier extracted from a pull-request
    reference of the table whose hash is the hash of the target. *)
Theorem findPullRequestIDFromRemote_outcomes
    (rangeOrder : RefToHash -> list (string * string))
    (rangeOrder_entries : forall m, rangeOrder m ≡ₚ map_to_list m)
    (b : BacklogRepository) (ref : string) (tty : Terminal) (table : RefToHash) :
  repo_LsRemote b = Ok table ->
  let r := (findPullRequestIDFromRemote rangeOrder b ref tty).2 in
  r = Err errNoBranch
  \/ r = Err errNoPullRequest
  \/ r = Exit 0
  \/ r = Err (TeaError (failure tty))
  \/ exists h pr,
       table !! ref = Some h /\ isPRRef pr = true /\ table !! pr = Some h
       /\ r = Ok (extractPRID pr).
Proof.
  intros Hls r. subst r. unfold findPullRequestIDFromRemote. rewrite Hls.
  destruct (table !! ref) as [h|] eqn:Href; [|by left].
  destruct (collectPRIDs h (rangeOrder table)) as [|id0 rest] eqn:E; [by right; left|].
  simpl length. cbn [Nat.eqb].
  set (ids := Sort.Sort (Sort.Reverse Sort.StringSlice_Less) (id0 :: rest)).
  assert (ids ≡ₚ id0 :: rest) as Hperm by apply SortFacts.Sort_perm.
  assert (ids <> []) as Hne.
  { intros Hnil. rewrite Hnil in Hperm. by apply Permutation_nil_cons in Hperm. }
  destruct (selectPR_outcomes b ids tty Hne) as [(id & Hin & ->)|[-> | ->]].
  - right; right; right; right.
    rewrite Hperm, <- E in Hin.
    apply (elem_of_collectPRIDs rangeOrder rangeOrder_entries) in Hin
      as (pr & Hpr & Hl & ->).
    by exists h, pr.
  - by right; right; left.
  - by right; right; right; left.
Qed.

Lemma findPullRequestIDFromRemote_outcomes_witness :
  let table : RefToHash :=
    list_to_map [("refs/heads/feature", "abc123"); ("refs/pull/9/head", "abc123");
                 ("refs/pull/10/head", "abc123")] in
  let b := mkBacklogRepository "refs/heads/feature" (Ok table) "PRJ" "app" in
  let tty := mkTerminal [KeyMsg "j"; KeyMsg "enter"] "closed" in
  let r := (findPullRequestIDFromRemote map_to_list b "refs/heads/feature" tty).2 in
  r = Ok "10"
  /\ (r = Err errNoBranch \/ r = Err errNoPullRequest \/ r = Exit 0
      \/ r = Err (TeaError "closed")
      \/ exists h pr,
           table !! "refs/heads/feature" = Some h /\ isPRRef pr = true
           /\ table !! pr = Some h /\ r = Ok (extractPRID pr)).
Proof.
  intros table b tty r. split; [vm_compute; reflexivity|].
  apply (findPullRequestIDFromRemote_outcomes map_to_list (fun m => reflexivity _)
           b "refs/heads/feature" tty table eq_refl).
Defined.

(** X12.  When exactly one pull-request reference of the table has the hash
    of the target, [findPullRequestIDFromRemote] returns its identifier
    without any event of the interactive step, whatever the terminal would
    deliver. *)
Theorem findPullRequestIDFromRemote_single_match
    (rangeOrder : RefToHash -> list (string * string))
    (rangeOrder_entries : forall m, rangeOrder m ≡ₚ map_to_list m)
    (b : BacklogRepository) (ref : string) (tty : Terminal)
    (table : RefToHash) (h pr0 : string) :
  repo_LsRemote b = Ok table ->
  table !! ref = Some h ->
  isPRRef pr0 = true ->
  table !! pr0 = Some h ->
  (forall pr, isPRRef pr = true -> table !! pr = Some h -> pr = pr0) ->
  findPullRequestIDFromRemote rangeOrder b ref tty = ([], Ok (extractPRID pr0)).
Proof.
  intros Hls Href Hpr Hl Huniq. unfold findPullRequestIDFromRemote.
  rewrite Hls, Href.
  by rewrite (collectPRIDs_single rangeOrder rangeOrder_entries table h pr0).
Qed.

Lemma findPullRequestIDFromRemote_single_match_witness :
  let table : RefToHash :=
    {[ "refs/heads/feature" := "abc123"; "refs/pull/42/head" := "abc123" ]} in
  findPullRequestIDFromRemote map_to_list
    (mkBacklogRepository "refs/heads/feature" (Ok table) "PRJ" "app")
    "refs/heads/feature" (mkTerminal [KeyMsg "q"] "closed")
  = ([], Ok "42").
Proof.
  intros table.
  apply (findPullRequestIDFromRemote_single_match map_to_list (fun m => reflexivity _)
    (mkBacklogRepository "refs/heads/feature" (Ok table) "PRJ" "app")
    "refs/heads/feature" (mkTerminal [KeyMsg "q"] "closed") table "abc123"
    "refs/pull/42/head" eq_refl).
  - vm_compute. reflexivity.
  - reflexivity.
  - vm_compute. reflexivity.
  - intros pr Hpr Hl. unfold table in Hl.
    destruct (decide (pr = "refs/pull/42/head")) as [->|Hne]; [done|].
    rewrite lookup_insert_ne in Hl.
    + rewrite lookup_singleton_ne in Hl; [done|]. by intros <-.
    + intros <-. done.
Defined.

(** X13.  Identifier extraction inverts the naming of pull-request heads:
    [refs/pull/<id>/head] is accepted by [isPRRef] and gives back [<id>],
    for every text [<id>]. *)
Theorem extractPRID_roundtrip (id : string) :
  isPRRef ("refs/pull/" ++ id ++ "/head") = true
  /\ extractPRID ("refs/pull/" ++ id ++ "/head") = id.
Proof.
  split; [|apply extractPRID_form].
  apply isPRRef_form. left. by exists id.
Qed.

(** X14.  The candidates hold no identifier twice, unless both
    [refs/pull/head] and [refs/pull/head/head] have the hash of the target:
    these two names give the same identifier [head]. *)
Theorem candidates_NoDup
    (rangeOrder : RefToHash -> list (string * string))
    (rangeOrder_entries : forall m, rangeOrder m ≡ₚ map_to_list m)
    (table : RefToHash) (h : string) :
  ~ (table !! "refs/pull/head" = Some h /\ table !! "refs/pull/head/head" = Some h) ->
  NoDup (candidates rangeOrder table h).
Proof.
  intros Hnot. unfold candidates. rewrite SortFacts.Sort_perm, collectPRIDs_spec.
  apply NoDup_fmap_2_strong; [|apply NoDup_filter, rangeOrder_NoDup; done].
  assert (forall pr, (pr, h) ∈ rangeOrder table -> table !! pr = Some h) as Hin.
  { intros pr Hpr. rewrite rangeOrder_entries in Hpr.
    by apply elem_of_map_to_list in Hpr. }
  intros [pr1 h1] [pr2 h2] [[Hp1 Hh1] Hin1]%list_elem_of_filter
    [[Hp2 Hh2] Hin2]%list_elem_of_filter Heq.
  simpl in *. subst h1 h2. f_equal.
  apply Hin in Hin1, Hin2.
  apply isPRRef_form in Hp1 as [[id1 ->]| ->], Hp2 as [[id2 ->]| ->].
  - rewrite !extractPRID_form in Heq. by subst.
  - rewrite extractPRID_form in Heq. subst id1. by destruct Hnot.
  - rewrite extractPRID_form in Heq. subst id2. by destruct Hnot.
  - done.
Qed.

Lemma candidates_NoDup_witness :
  NoDup (candidates map_to_list
           {[ "refs/heads/feature" := "abc123"; "refs/pull/9/head" := "abc123";
              "refs/pull/10/head" := "abc123" ]} "abc123").
Proof.
  apply (candidates_NoDup map_to_list (fun m => reflexivity _)).
  intros [H _]. vm_compute in H. discriminate H.
Defined.

(** Both names present: the identifier [head] is a candidate twice. *)
Example candidates_duplicate :
  candidates map_to_list
    {[ "refs/heads/feature" := "abc123"; "refs/pull/head" := "abc123";
       "refs/pull/head/head" := "abc123" ]} "abc123"
  = ["head"; "head"].
Proof. vm_compute. reflexivity. Qed.


(** ** Blame attribution: the labels *)

Module RegexpFacts.
Import Regexp StringFacts SplitFacts.

Lemma append_empty_r (a : string) : a ++ "" = a.
Proof. induction a as [|c a IH]; unfold_append; [done | by rewrite IH]. Qed.

Lemma append_assoc (a b c : string) : (a ++ b) ++ c = a ++ b ++ c.
Proof. induction a as [|x a IH]; unfold_append; [done | by rewrite IH]. Qed.

(** What a successful [cls+] has matched. *)
Lemma plus_sound {A : Type} (cls : ascii -> bool) (k : string -> string -> option A)
    (matched s : string) (r : A) :
  plus cls k matched s = Some r ->
  exists a rest, all_in cls a /\ s = a ++ rest /\ k (matched ++ a) rest = Some r.
Proof.
  revert matched. induction s as [|c s IH]; intros matched; cbn [plus]; [done|].
  destruct (cls c) eqn:Hc; [|done].
  destruct (plus cls k (matched ++ String c "") s) as [r'|] eqn:Hrec.
  - intros [= ->]. destruct (IH _ Hrec) as (a & rest & [Hne Ha] & -> & Hk).
    exists (String c a), rest. split; [split; [done|]|split; [done|]].
    + intros c' [-> |Hin]%elem_of_cons; auto.
    + by rewrite append_assoc in Hk.
  - intros Hk. exists (String c ""), s. split; [split; [done|]|done].
    intros c' [-> |Hin]%elem_of_cons; [done|]. by apply not_elem_of_nil in Hin.
Qed.

(** [cls+] before a text it cannot enter matches the whole run first. *)
Lemma plus_greedy {A : Type} (cls : ascii -> bool) (k : string -> string -> option A)
    (matched a rest : string) (r : A) :
  all_in cls a -> stops cls rest ->
  k (matched ++ a) rest = Some r ->
  plus cls k matched (a ++ rest) = Some r.
Proof.
  intros [Hne Ha] Hstop. revert matched.
  induction a as [|c a IH]; [done|]. intros matched Hk.
  change (String c a ++ rest) with (String c (a ++ rest)). cbn [plus].
  rewrite (Ha c) by left.
  destruct a as [|c' a].
  - change ("" ++ rest) with rest.
    assert (plus cls k (matched ++ String c "") rest = None) as ->; [|done].
    destruct rest as [|c' rest]; [done|]. cbn [plus]. simpl in Hstop. by rewrite Hstop.
  - rewrite IH; [done | done | |].
    + intros c'' Hin. apply Ha. by right.
    + by rewrite append_assoc.
Qed.

Lemma lit_app {A : Type} (l s : string) (k : string -> option A) :
  lit l k (l ++ s) = k s.
Proof.
  unfold lit.
  assert (String.prefix l (l ++ s) = true) as -> by (apply HasPrefix_spec; eauto).
  by rewrite slice_from_app.
Qed.

Lemma lit_sound {A : Type} (l s : string) (k : string -> option A) (r : A) :
  lit l k s = Some r -> exists rest, s = l ++ rest /\ k rest = Some r.
Proof.
  unfold lit. destruct (String.prefix l s) eqn:Hp; [|done].
  apply HasPrefix_spec in Hp as [t ->]. rewrite slice_from_app. eauto.
Qed.

(** What the pattern of [lookup] captures, when it matches. *)
Lemma mergeSummary_sound (out : string) :
  mergeSummary_FindStringSubmatch out = []
  \/ exists whole id, mergeSummary_FindStringSubmatch out = [whole; id]
                      /\ all_in decimal id.
Proof.
  unfold mergeSummary_FindStringSubmatch.
  destruct (plus hex _ "" out) as [[id rest]|] eqn:Hm; [|by left].
  right. eexists _, id. split; [done|].
  apply plus_sound in Hm as (h & r1 & _ & _ & Hm).
  apply lit_sound in Hm as (r2 & _ & Hm).
  apply plus_sound in Hm as (d & r3 & Hd & _ & Hm).
  apply lit_sound in Hm as (r4 & _ & Hm).
  apply plus_sound in Hm as (a & r5 & _ & _ & Hm).
  apply lit_sound in Hm as (r6 & _ & Hm).
  apply plus_sound in Hm as (b & r7 & _ & _ & Hm).
  by injection Hm as <- _.
Qed.

(** The pattern matches the first line of a merge summary and captures its
    number. *)
Lemma mergeSummary_complete (h d a b tail : string) :
  all_in hex h -> all_in decimal d -> all_in nonspace a -> all_in nonspace b ->
  stops nonspace tail ->
  mergeSummary_FindStringSubmatch
    (h ++ " Merge pull request #" ++ d ++ " " ++ a ++ " into " ++ b ++ tail)
  !! 1 = Some d.
Proof.
  intros Hh Hd Ha Hb Htail. unfold mergeSummary_FindStringSubmatch.
  match goal with
  | |- context [plus hex ?k "" ?s] =>
      assert (plus hex k "" s = Some (d, tail)) as ->; [|reflexivity]
  end.
  apply plus_greedy; [done | exact eq_refl |].
  rewrite (lit_app " Merge pull request #").
  apply plus_greedy; [done | exact eq_refl |].
  rewrite (lit_app " ").
  apply plus_greedy; [done | exact eq_refl |].
  rewrite (lit_app " into ").
  apply plus_greedy; [done | done |].
  reflexivity.
Qed.

Lemma all_in_check (cls : ascii -> bool) (s : string) :
  s <> "" -> forallb cls (list_ascii_of_string s) = true -> all_in cls s.
Proof.
  intros Hne Hall. split; [done|]. intros c Hc.
  rewrite forallb_forall in Hall. apply Hall. by apply list_elem_of_In.
Qed.

End RegexpFacts.

Module StrconvFacts.
Import Strconv.

Lemma digits_nonneg (s : string) (acc v : Z) :
  (0 <= acc)%Z -> digits acc s = Some v -> (0 <= v)%Z.
Proof.
  revert acc. induction s as [|c s IH]; intros acc Hacc; cbn [digits].
  - intros [= <-]. done.
  - destruct (digit c) as [dv|] eqn:Hd; [|done].
    apply IH. unfold digit in Hd.
    destruct (("0" <=? c) && (c <=? "9"))%char eqn:Hc; [|done].
    injection Hd as <-.
    apply andb_true_iff in Hc as [Hlo _].
    unfold Ascii.leb, Ascii.compare in Hlo.
    change (N_of_ascii "0") with 48%N in Hlo.
    destruct (N.compare_spec 48 (N_of_ascii c)); try done; lia.
Qed.

(** A run of decimal digits has no sign: [Atoi] reads it as a number that
    is not negative, or rejects it as out of range. *)
Lemma Atoi_decimal (d : string) (n : Z) :
  all_in Regexp.decimal d -> Atoi d = Some n -> (0 <= n <= maxInt)%Z.
Proof.
  intros [Hne Hall]. destruct d as [|c d]; [done|].
  assert (Regexp.decimal c = true) as Hc by (apply Hall; left).
  assert (Atoi (String c d) =
            match digits 0 (String c d) with
            | Some v => if ((minInt <=? v) && (v <=? maxInt))%Z then Some v else None
            | None => None
            end) as ->.
  { clear -Hc. destruct c as [[|] [|] [|] [|] [|] [|] [|] [|]]; try discriminate Hc;
      reflexivity. }
  destruct (digits 0 (String c d)) as [v|] eqn:Hv; [|done].
  pose proof (digits_nonneg _ 0 v ltac:(done) Hv) as Hpos.
  destruct (Z.leb_spec minInt v), (Z.leb_spec v maxInt); simpl; try done.
  intros [= <-]. lia.
Qed.

Lemma digits_acc_pos (u : Decimal.uint) (acc : positive) :
  digits (Zpos acc) (NilEmpty.string_of_uint u) = Some (Zpos (Pos.of_uint_acc u acc)).
Proof.
  revert acc. induction u; intros acc; cbn [NilEmpty.string_of_uint digits Pos.of_uint_acc];
    [done|..];
    (change (digit _) with (Some 0%Z) || change (digit _) with (Some 1%Z)
     || change (digit _) with (Some 2%Z) || change (digit _) with (Some 3%Z)
     || change (digit _) with (Some 4%Z) || change (digit _) with (Some 5%Z)
     || change (digit _) with (Some 6%Z) || change (digit _) with (Some 7%Z)
     || change (digit _) with (Some 8%Z) || change (digit _) with (Some 9%Z));
    cbv iota; rewrite <- IHu; f_equal; lia.
Qed.

Lemma digits_of_uint (u : Decimal.uint) :
  digits 0 (NilEmpty.string_of_uint u) = Some (Z.of_N (Pos.of_uint u)).
Proof.
  induction u; cbn [NilEmpty.string_of_uint digits Pos.of_uint]; [done|..];
    (change (digit _) with (Some 0%Z) || change (digit _) with (Some 1%Z)
     || change (digit _) with (Some 2%Z) || change (digit _) with (Some 3%Z)
     || change (digit _) with (Some 4%Z) || change (digit _) with (Some 5%Z)
     || change (digit _) with (Some 6%Z) || change (digit _) with (Some 7%Z)
     || change (digit _) with (Some 8%Z) || change (digit _) with (Some 9%Z));
    cbv iota; [exact IHu|..]; apply digits_acc_pos.
Qed.

End StrconvFacts.

Section LabelFacts.
Import Strconv StrconvFacts RegexpFacts.

Lemma decimal_uint (d : string) :
  (forall c, c ∈ list_ascii_of_string d -> Regexp.decimal c = true) ->
  exists u, NilEmpty.string_of_uint u = d.
Proof.
  induction d as [|c d IH]; intros Hall; [by exists Decimal.Nil|].
  destruct IH as [u <-]; [intros c' Hin; apply Hall; by right|].
  assert (Regexp.decimal c = true) as Hc by (apply Hall; left).
  destruct c as [[|] [|] [|] [|] [|] [|] [|] [|]]; try discriminate Hc;
    first [ by exists (Decimal.D0 u) | by exists (Decimal.D1 u)
          | by exists (Decimal.D2 u) | by exists (Decimal.D3 u)
          | by exists (Decimal.D4 u) | by exists (Decimal.D5 u)
          | by exists (Decimal.D6 u) | by exists (Decimal.D7 u)
          | by exists (Decimal.D8 u) | by exists (Decimal.D9 u) ].
Qed.

(** Printing what [Atoi] read gives the digits back when they are written
    without a leading zero. *)
Lemma Itoa_Atoi_canonical (d : string) (n : Z) :
  all_in Regexp.decimal d -> HasPrefix d "0" = false ->
  Atoi d = Some n -> Itoa n = d.
Proof.
  intros [Hne Hall] Hzero Hn.
  destruct (decimal_uint d Hall) as [u <-].
  assert (Decimal.unorm u = u /\ u <> Decimal.Nil) as [Hnorm Hnil].
  { destruct u; try done.
    exfalso. unfold HasPrefix in Hzero. cbn [NilEmpty.string_of_uint] in Hzero.
    rewrite StringFacts.prefix_char_cons in Hzero. by case_bool_decide. }
  destruct (NilEmpty.string_of_uint u) as [|c s] eqn:Hs; [done|].
  assert (Regexp.decimal c = true) as Hc by (apply Hall; left).
  assert (Atoi (String c s) =
            match digits 0 (String c s) with
            | Some v => if ((minInt <=? v) && (v <=? maxInt))%Z then Some v else None
            | None => None
            end) as HA.
  { clear -Hc. destruct c as [[|] [|] [|] [|] [|] [|] [|] [|]]; try discriminate Hc;
      reflexivity. }
  rewrite HA, <- Hs, digits_of_uint in Hn.
  destruct ((minInt <=? Z.of_N (Pos.of_uint u)) && (Z.of_N (Pos.of_uint u) <=? maxInt))%Z;
    [|done].
  injection Hn as <-. unfold Itoa.
  assert (Z.to_int (Z.of_N (Pos.of_uint u)) = Decimal.Pos (N.to_uint (Pos.of_uint u))) as ->
    by (by destruct (Pos.of_uint u)).
  rewrite DecimalPos.Unsigned.to_of, Hnorm. cbn [NilZero.string_of_int].
  destruct u; done.
Qed.

Variable gitShow : string -> string + error.

Lemma lookup_unfold (commit out : string) :
  gitShow commit = inl out ->
  lookup gitShow commit =
    match Regexp.mergeSummary_FindStringSubmatch out !! 1 with
    | None => Ok commit
    | Some id =>
        match Atoi id with
        | None => Ok commit
        | Some n => Ok ("PR #" ++ Itoa n)
        end
    end.
Proof.
  intros Hout. unfold lookup. rewrite Hout.
  destruct (mergeSummary_sound out) as [-> |(whole & id & -> & _)]; done.
Qed.

End LabelFacts.

(** X15.  [lookup] returns an error exactly when the command of the query
    fails, and then that error; it never panics.  A label it returns is the
    commit itself or [PR #] followed by a number from 0 to the largest
    [int]. *)
Theorem lookup_outcomes (gitShow : string -> string + error) (commit : string) :
  (forall e, lookup gitShow commit = Err e <-> gitShow commit = inr e)
  /\ (forall label, lookup gitShow commit = Ok label ->
        label = commit
        \/ exists n, (0 <= n <= Strconv.maxInt)%Z /\ label = "PR #" ++ Strconv.Itoa n)
  /\ (forall reason, lookup gitShow commit <> Panic reason)
  /\ (forall code, lookup gitShow commit <> Exit code).
Proof.
  destruct (gitShow commit) as [out|err] eqn:Hshow.
  - rewrite (lookup_unfold gitShow commit out Hshow).
    assert (forall r : result string,
              (exists label, r = Ok label /\
                 (label = commit
                  \/ exists n, (0 <= n <= Strconv.maxInt)%Z
                               /\ label = "PR #" ++ Strconv.Itoa n)) ->
              (forall e, r = Err e <-> @inl string error out = inr e)
              /\ (forall label, r = Ok label ->
                    label = commit
                    \/ exists n, (0 <= n <= Strconv.maxInt)%Z
                                 /\ label = "PR #" ++ Strconv.Itoa n)
              /\ (forall reason, r <> Panic reason)
              /\ (forall code, r <> Exit code)) as Hshape.
    { intros r (label & -> & Hlabel). split; [|split; [|split]]; try done.
      by intros label' [= <-]. }
    apply Hshape.
    destruct (RegexpFacts.mergeSummary_sound out) as [-> |(whole & id & -> & Hid)].
    + change (@nil string !! 1) with (@None string).
      exists commit. split; [done | by left].
    + replace ([whole; id] !! 1) with (Some id) by reflexivity.
      destruct (Strconv.Atoi id) as [n|] eqn:Hn.
      * eexists. split; [reflexivity|]. right. exists n.
        split; [|done]. by eapply StrconvFacts.Atoi_decimal.
      * exists commit. split; [done | by left].
  - unfold lookup. rewrite Hshow. split; [|split; [|split]]; try done.
    intros e. split; congruence.
Qed.

(** X16.  When the output of the query begins with a merge summary
    [<hex> Merge pull request #<digits> <word> into <word>], ended by the
    end of the output or by white space, [lookup] labels the commit [PR #n]
    for the number [n] that [Atoi] reads from the digits, and with the
    commit itself when the digits are beyond the range of [int]. *)
Theorem lookup_merge_summary (gitShow : string -> string + error)
    (commit h d a b tail : string) :
  all_in Regexp.hex h -> all_in Regexp.decimal d ->
  all_in Regexp.nonspace a -> all_in Regexp.nonspace b ->
  stops Regexp.nonspace tail ->
  gitShow commit =
    inl (h ++ " Merge pull request #" ++ d ++ " " ++ a ++ " into " ++ b ++ tail) ->
  lookup gitShow commit =
    match Strconv.Atoi d with
    | Some n => Ok ("PR #" ++ Strconv.Itoa n)
    | None => Ok commit
    end.
Proof.
  intros Hh Hd Ha Hb Htail Hshow.
  rewrite (lookup_unfold gitShow commit _ Hshow).
  by rewrite (RegexpFacts.mergeSummary_complete h d a b tail Hh Hd Ha Hb Htail).
Qed.

Lemma lookup_merge_summary_witness :
  lookup show_sample "4d5e6f" = Ok "PR #42"
  /\ lookup (fun _ => inl ("4d5e6f Merge pull request #9223372036854775808 topic into master"
                            ++ newline ++ "diff --git")) "4d5e6f" = Ok "4d5e6f".
Proof.
  split.
  - apply (lookup_merge_summary show_sample "4d5e6f" "4d5e6f" "42" "topic" "master" "");
      try (by apply RegexpFacts.all_in_check); done.
  - apply (lookup_merge_summary _ "4d5e6f" "4d5e6f" "9223372036854775808" "topic"
             "master" (newline ++ "diff --git"));
      try (by apply RegexpFacts.all_in_check); done.
Defined.

(** X17.  When the digits of the merge summary are written without a
    leading zero and are within the range of [int], the label is [PR #]
    followed by exactly those digits. *)
Theorem lookup_merge_summary_digits (gitShow : string -> string + error)
    (commit h d a b tail : string) (n : Z) :
  all_in Regexp.hex h -> all_in Regexp.decimal d ->
  all_in Regexp.nonspace a -> all_in Regexp.nonspace b ->
  stops Regexp.nonspace tail ->
  HasPrefix d "0" = false ->
  Strconv.Atoi d = Some n ->
  gitShow commit =
    inl (h ++ " Merge pull request #" ++ d ++ " " ++ a ++ " into " ++ b ++ tail) ->
  lookup gitShow commit = Ok ("PR #" ++ d).
Proof.
  intros Hh Hd Ha Hb Htail Hzero Hn Hshow.
  rewrite (lookup_merge_summary gitShow commit h d a b tail) by done.
  by rewrite Hn, (Itoa_Atoi_canonical d n).
Qed.

Lemma lookup_merge_summary_digits_witness :
  lookup (fun _ => inl ("1a2b3c Merge pull request #1205 feature/x into develop"
                          ++ newline)) "1a2b3c"
  = Ok "PR #1205".
Proof.
  apply (lookup_merge_summary_digits _ "1a2b3c" "1a2b3c" "1205" "feature/x" "develop"
           newline 1205);
    try (by apply RegexpFacts.all_in_check); done.
Defined.

(** Leading zeros of the number are not kept in the label. *)
Example lookup_leading_zeros :
  lookup (fun _ => inl "1a2b3c Merge pull request #007 topic into master") "1a2b3c"
  = Ok "PR #7".
Proof. reflexivity. Qed.


(** ** Blame attribution: the cache is transparent *)

Section TransparencyFacts.

Variable gitShow : string -> string + error.






End TransparencyFacts.



(** ** Statuses and the list commands *)

Section StatusFacts.

Variable rangeKeys : forall V : Type, gmap string V -> list string.
Hypothesis rangeKeys_keys :
  forall V (m : gmap string V), rangeKeys V m ≡ₚ (map_to_list m).*1.

Lemma prStrToStatus_lookup (s : string) :
  prStrToStatus !! s =
    if decide (s = "merged") then Some PRStatusMerged
    else if decide (s = "closed") then Some PRStatusClosed
    else if decide (s = "open") then Some PRStatusOpen
    else if decide (s = "all") then Some PRStatusAll
    else None.
Proof.
  unfold prStrToStatus. rewrite !lookup_insert, lookup_empty.
  repeat case_decide; congruence.
Qed.

Lemma issueStrToStatus_lookup (s : string) :
  issueStrToStatus !! s =
    if decide (s = "not_closed") then Some IssueStatusNotClosed
    else if decide (s = "closed") then Some IssueStatusClosed
    else if decide (s = "resolved") then Some IssueStatusResolved
    else if decide (s = "in_progress") then Some IssueStatusInProgress
    else if decide (s = "open") then Some IssueStatusOpen
    else if decide (s = "all") then Some IssueStatusAll
    else None.
Proof.
  unfold issueStrToStatus. rewrite !lookup_insert, lookup_empty.
  repeat case_decide; congruence.
Qed.

Lemma prStrToStatus_keys :
  rangeKeys _ prStrToStatus ≡ₚ ["merged"; "closed"; "open"; "all"].
Proof.
  rewrite rangeKeys_keys. unfold prStrToStatus.
  rewrite !map_to_list_insert, map_to_list_empty; done.
Qed.

Lemma issueStrToStatus_keys :
  rangeKeys _ issueStrToStatus
  ≡ₚ ["not_closed"; "closed"; "resolved"; "in_progress"; "open"; "all"].
Proof.
  rewrite rangeKeys_keys. unfold issueStrToStatus.
  rewrite !map_to_list_insert, map_to_list_empty; done.
Qed.

End StatusFacts.

(** X19.  [OpenPullRequestList] opens the list URL with the number 0, 1, 2
    or 3 for the status [all], [open], [closed] or [merged].  For every
    other status it returns, whatever the browser command would do, an
    error whose message lists the four statuses in some order. *)
Theorem OpenPullRequestList_statuses
    (rangeKeys : forall V : Type, gmap string V -> list string)
    (rangeKeys_keys : forall V (m : gmap string V), rangeKeys V m ≡ₚ (map_to_list m).*1)
    (openBrowser : string -> option error) (PullRequestListURL : Z -> string)
    (status : string) :
  let open := OpenPullRequestList rangeKeys openBrowser PullRequestListURL in
  (status = "all" -> open status = openBrowser (PullRequestListURL 0%Z))
  /\ (status = "open" -> open status = openBrowser (PullRequestListURL 1%Z))
  /\ (status = "closed" -> open status = openBrowser (PullRequestListURL 2%Z))
  /\ (status = "merged" -> open status = openBrowser (PullRequestListURL 3%Z))
  /\ (status ∉ ["all"; "open"; "closed"; "merged"] ->
        exists specs,
          specs ≡ₚ ["all"; "open"; "closed"; "merged"]
          /\ open status =
             Some (ErrorsNew ("invalid pull request's. choose from "
                                ++ fmt_strings specs))).
Proof.
  intros open. subst open. unfold OpenPullRequestList, PRStatusFromString.
  rewrite prStrToStatus_lookup.
  split; [|split; [|split; [|split]]]; try (intros ->; reflexivity).
  rewrite !not_elem_of_cons. intros (? & ? & ? & ? & _).
  rewrite !decide_False by done.
  exists (rangeKeys _ prStrToStatus). split; [|done].
  rewrite (prStrToStatus_keys rangeKeys rangeKeys_keys).
  apply (bool_decide_unpack _). vm_compute. exact I.
Qed.

Lemma OpenPullRequestList_statuses_witness :
  let openBrowser := fun url : string => @None error in
  let url := fun n : Z => "pullRequests?status=" ++ Strconv.Itoa n in
  OpenPullRequestList (fun V m => (map_to_list m).*1) openBrowser url "closed"
    = openBrowser (url 2%Z)
  /\ exists msg,
       OpenPullRequestList (fun V m => (map_to_list m).*1) openBrowser url "draft"
       = Some (ErrorsNew msg).
Proof.
  intros openBrowser url.
  destruct (OpenPullRequestList_statuses (fun V m => (map_to_list m).*1)
              (fun V m => reflexivity _) openBrowser url "closed")
    as (_ & _ & Hclosed & _).
  destruct (OpenPullRequestList_statuses (fun V m => (map_to_list m).*1)
              (fun V m => reflexivity _) openBrowser url "draft")
    as (_ & _ & _ & _ & Hother).
  split; [exact (Hclosed eq_refl)|].
  destruct Hother as (specs & _ & ->).
  - rewrite !not_elem_of_cons. repeat split; try done. apply not_elem_of_nil.
  - eauto.
Defined.

(** X20.  [OpenIssueList] opens the list URL without status identifiers for
    [all], with the identifiers 1, 2 and 3 (open, in progress, resolved)
    for [not_closed], and with the one identifier 1, 2, 3 or 4 for [open],
    [in_progress], [resolved] or [closed]; the numbers 0 and 5 of [all]
    and [not_closed] are never passed on.  For every other state it
    returns an error whose message lists the six states in some order,
    whatever the browser command would do. *)
Theorem OpenIssueList_status_ids
    (rangeKeys : forall V : Type, gmap string V -> list string)
    (rangeKeys_keys : forall V (m : gmap string V), rangeKeys V m ≡ₚ (map_to_list m).*1)
    (openBrowser : string -> option error) (IssueListURL : list Z -> string)
    (state : string) :
  let open := OpenIssueList rangeKeys openBrowser IssueListURL in
  (state = "all" -> open state = openBrowser (IssueListURL []))
  /\ (state = "not_closed" -> open state = openBrowser (IssueListURL [1; 2; 3]%Z))
  /\ (state = "open" -> open state = openBrowser (IssueListURL [1%Z]))
  /\ (state = "in_progress" -> open state = openBrowser (IssueListURL [2%Z]))
  /\ (state = "resolved" -> open state = openBrowser (IssueListURL [3%Z]))
  /\ (state = "closed" -> open state = openBrowser (IssueListURL [4%Z]))
  /\ (state ∉ ["all"; "open"; "in_progress"; "resolved"; "closed"; "not_closed"] ->
        exists specs,
          specs ≡ₚ ["all"; "open"; "in_progress"; "resolved"; "closed"; "not_closed"]
          /\ open state =
             Some (ErrorsNew ("invalid issue's status. choose from "
                                ++ fmt_strings specs))).
Proof.
  intros open. subst open. unfold OpenIssueList, IssueStatusFromString.
  rewrite issueStrToStatus_lookup.
  split; [|split; [|split; [|split; [|split; [|split]]]]];
    try (intros ->; reflexivity).
  rewrite !not_elem_of_cons. intros (? & ? & ? & ? & ? & ? & _).
  rewrite !decide_False by done.
  exists (rangeKeys _ issueStrToStatus). split; [|done].
  rewrite (issueStrToStatus_keys rangeKeys rangeKeys_keys).
  apply (bool_decide_unpack _). vm_compute. exact I.
Qed.

Lemma OpenIssueList_status_ids_witness :
  let openBrowser := fun url : string => @None error in
  let url := fun ids : list Z => "issues?statusId=" ++ Join (Strconv.Itoa <$> ids) "," in
  OpenIssueList (fun V m => (map_to_list m).*1) openBrowser url "not_closed"
    = openBrowser (url [1; 2; 3]%Z)
  /\ exists msg,
       OpenIssueList (fun V m => (map_to_list m).*1) openBrowser url "done"
       = Some (ErrorsNew msg).
Proof.
  intros openBrowser url.
  destruct (OpenIssueList_status_ids (fun V m => (map_to_list m).*1)
              (fun V m => reflexivity _) openBrowser url "not_closed")
    as (_ & Hnc & _).
  destruct (OpenIssueList_status_ids (fun V m => (map_to_list m).*1)
              (fun V m => reflexivity _) openBrowser url "done")
    as (_ & _ & _ & _ & _ & _ & Hother).
  split; [exact (Hnc eq_refl)|].
  destruct Hother as (specs & _ & ->).
  - rewrite !not_elem_of_cons. repeat split; try done. apply not_elem_of_nil.
  - eauto.
Defined.


(** ** Issue keys *)

Module IssueKeyFacts.
Import IssueKey Regexp StringFacts SplitFacts RegexpFacts.

Lemma lit_m_app {A : Type} (l s matched : string) (k : string -> string -> option A) :
  lit_m l k matched (l ++ s) = k (matched ++ l) s.
Proof.
  unfold lit_m.
  assert (String.prefix l (l ++ s) = true) as -> by (apply HasPrefix_spec; eauto).
  by rewrite slice_from_app.
Qed.

Lemma lit_m_sound {A : Type} (l s matched : string) (k : string -> string -> option A)
    (r : A) :
  lit_m l k matched s = Some r ->
  exists rest, s = l ++ rest /\ k (matched ++ l) rest = Some r.
Proof.
  unfold lit_m. destruct (String.prefix l s) eqn:Hp; [|done].
  apply HasPrefix_spec in Hp as [t ->]. rewrite slice_from_app. eauto.
Qed.

Lemma groups_sound {A : Type} (n : nat) (k : string -> string -> option A)
    (matched s : string) (r : A) :
  groups n k matched s = Some r ->
  exists g rest, s = g ++ rest /\ k (matched ++ g) rest = Some r.
Proof.
  revert matched s. induction n as [|n IH]; intros matched s; cbn [groups].
  - intros Hk. exists "", s. by rewrite append_empty_r.
  - destruct (lit_m "_" (plus upperDigit (groups n k)) matched s) as [r'|] eqn:Hg.
    + intros [= ->].
      apply lit_m_sound in Hg as (r1 & -> & Hg).
      apply plus_sound in Hg as (a & r2 & _ & -> & Hg).
      apply IH in Hg as (g & rest & -> & Hk).
      exists ("_" ++ a ++ g), rest. split.
      * by rewrite !append_assoc.
      * by rewrite !append_assoc in Hk.
    + intros Hk. exists "", s. by rewrite append_empty_r.
Qed.

Lemma plus_ext_shorter {A : Type} (cls : ascii -> bool)
    (k1 k2 : string -> string -> option A) (matched s : string) :
  (forall m r, String.length r < String.length s -> k1 m r = k2 m r) ->
  plus cls k1 matched s = plus cls k2 matched s.
Proof.
  revert matched. induction s as [|c s IH]; intros matched Hk; [done|].
  cbn [plus]. destruct (cls c); [|done].
  rewrite (IH (matched ++ String c "")).
  - rewrite (Hk (matched ++ String c "") s); [done | simpl; lia].
  - intros m r Hr. apply Hk. simpl. lia.
Qed.

(** The bound on the number of groups is never reached: any bound from the
    length of the text on gives the same match. *)
Lemma groups_enough {A : Type} (n1 n2 : nat) (k : string -> string -> option A)
    (matched s : string) :
  String.length s <= n1 -> String.length s <= n2 ->
  groups n1 k matched s = groups n2 k matched s.
Proof.
  revert n2 matched s.
  assert (forall n m, groups n k m "" = k m "") as Hempty by (by intros [|n] m).
  induction n1 as [|n1 IH]; intros n2 matched s H1 H2.
  - destruct s; [|simpl in H1; lia]. by rewrite !Hempty.
  - destruct n2 as [|n2].
    + destruct s; [|simpl in H2; lia]. by rewrite !Hempty.
    + cbn [groups]. unfold lit_m.
      destruct (String.prefix "_" s) eqn:Hp; [|done].
      apply HasPrefix_spec in Hp as [t ->]. rewrite slice_from_app.
      rewrite length_append in H1, H2. simpl in H1, H2.
      rewrite (plus_ext_shorter upperDigit (groups n1 k) (groups n2 k)); [done|].
      intros m r Hr. apply IH; lia.
Qed.

Lemma underscored_length (ks : list string) :
  length ks <= String.length (underscored ks).
Proof.
  induction ks as [|g ks IH]; [done|]. cbn [underscored length].
  rewrite !length_append. simpl. lia.
Qed.

(** The groups of a key are all taken before the hyphen is tried. *)
Lemma groups_greedy {A : Type} (ks : list string) (n : nat)
    (k : string -> string -> option A) (matched rest : string) (r : A) :
  length ks <= n ->
  Forall (all_in upperDigit) ks ->
  k (matched ++ underscored ks) ("-" ++ rest) = Some r ->
  groups n k matched (underscored ks ++ "-" ++ rest) = Some r.
Proof.
  revert n matched. induction ks as [|g ks IH]; intros n matched Hn Hall Hk.
  - cbn [underscored] in *. change ("" ++ "-" ++ rest) with ("-" ++ rest).
    rewrite append_empty_r in Hk. destruct n; [done|]. cbn [groups].
    assert (lit_m "_" (plus upperDigit (groups n k)) matched ("-" ++ rest) = None)
      as -> by reflexivity.
    done.
  - apply Forall_cons in Hall as [Hg Hall].
    destruct n as [|n]; [simpl in Hn; lia|]. cbn [groups underscored].
    rewrite !append_assoc, lit_m_app.
    rewrite (plus_greedy upperDigit (groups n k) (matched ++ "_") g
               (underscored ks ++ "-" ++ rest) r); [done | done | |].
    + destruct ks; exact eq_refl.
    + apply IH; [simpl in Hn; lia | done |].
      cbn [underscored] in Hk. by rewrite !append_assoc.
Qed.

Lemma match_at_sound (s key : string) :
  match_at s = Some key ->
  exists w d rest,
    s = key ++ rest /\ key = w ++ "-" ++ d /\ all_in upperDigit (slice_to 1 w)
    /\ all_in decimal d.
Proof.
  unfold match_at. intros Hm.
  apply plus_sound in Hm as (a & r1 & Ha & -> & Hm).
  apply groups_sound in Hm as (g & r2 & -> & Hm).
  apply lit_m_sound in Hm as (r3 & -> & Hm).
  apply plus_sound in Hm as (d & r4 & Hd & -> & Hm).
  injection Hm as <-.
  exists (a ++ g), d, r4. change ("" ++ a) with a.
  split; [by rewrite !append_assoc|]. split; [by rewrite !append_assoc|].
  split; [|done].
  destruct Ha as [Hne Ha]. destruct a as [|c a]; [done|].
  split; [done|]. intros c' Hc'. apply Ha.
  change (slice_to 1 (String c a ++ g)) with (String c "") in Hc'.
  apply list_elem_of_singleton in Hc' as ->. left.
Qed.

Lemma find_sound (s key : string) :
  find s = Some key ->
  exists pre w d post,
    s = pre ++ key ++ post /\ key = w ++ "-" ++ d /\ all_in upperDigit (slice_to 1 w)
    /\ all_in decimal d.
Proof.
  induction s as [|c s IH].
  - cbn [find]. destruct (match_at "") as [k|] eqn:Hm; [|done].
    intros [= ->]. apply match_at_sound in Hm as (w & d & rest & E & Hk & Hw & Hd).
    by exists "", w, d, rest.
  - cbn [find]. destruct (match_at (String c s)) as [k|] eqn:Hm.
    + intros [= ->]. apply match_at_sound in Hm as (w & d & rest & E & Hk & Hw & Hd).
      by exists "", w, d, rest.
    + intros (pre & w & d & post & -> & Hk & Hw & Hd)%IH.
      by exists (String c pre), w, d, post.
Qed.

Lemma find_skip (pre s : string) :
  (forall c, c ∈ list_ascii_of_string pre -> upperDigit c = false) ->
  s <> "" -> find (pre ++ s) = find s.
Proof.
  intros Hpre Hs. induction pre as [|c pre IH]; [done|].
  change (String c pre ++ s) with (String c (pre ++ s)). cbn [find].
  assert (match_at (String c (pre ++ s)) = None) as ->.
  { unfold match_at. cbn [plus]. by rewrite (Hpre c) by left. }
  apply IH. intros c' Hc'. apply Hpre. by right.
Qed.

Lemma match_at_key (k0 d post : string) (ks : list string) :
  all_in upperDigit k0 -> Forall (all_in upperDigit) ks ->
  all_in decimal d -> stops decimal post ->
  match_at (k0 ++ underscored ks ++ "-" ++ d ++ post)
  = Some (k0 ++ underscored ks ++ "-" ++ d).
Proof.
  intros Hk0 Hks Hd Hpost. unfold match_at.
  apply plus_greedy; [done | destruct ks; exact eq_refl |].
  change ("" ++ k0) with k0.
  apply groups_greedy; [|done|].
  - rewrite !length_append. pose proof (underscored_length ks). lia.
  - rewrite lit_m_app.
    rewrite (plus_greedy decimal _ ((k0 ++ underscored ks) ++ "-") d post
               (k0 ++ underscored ks ++ "-" ++ d)); [done | done | done |].
    by rewrite !append_assoc.
Qed.

Lemma find_here (s key : string) : match_at s = Some key -> find s = Some key.
Proof. destruct s; cbn [find]; by intros ->. Qed.

Lemma extractIssueKey_find (s : string) :
  extractIssueKey s = default "" (find s).
Proof.
  unfold extractIssueKey, FindStringSubmatch. by destruct (find s).
Qed.

End IssueKeyFacts.

(** X21.  A branch name in which an issue key [K-n] comes first is resolved
    to that key: when nothing before the key is an upper-case letter or a
    digit, the key is groups of upper-case letters and digits joined by
    underscores, a hyphen and a number, and the number is not followed by
    a further digit, [extractIssueKey] returns the key with its number. *)
Theorem extractIssueKey_branch (pre k0 d post : string) (ks : list string) :
  (forall c, c ∈ list_ascii_of_string pre -> IssueKey.upperDigit c = false) ->
  all_in IssueKey.upperDigit k0 ->
  Forall (all_in IssueKey.upperDigit) ks ->
  all_in Regexp.decimal d ->
  stops Regexp.decimal post ->
  extractIssueKey (pre ++ k0 ++ underscored ks ++ "-" ++ d ++ post)
  = k0 ++ underscored ks ++ "-" ++ d.
Proof.
  intros Hpre Hk0 Hks Hd Hpost.
  rewrite IssueKeyFacts.extractIssueKey_find, IssueKeyFacts.find_skip; [|done|].
  - by rewrite (IssueKeyFacts.find_here _ _
                  (IssueKeyFacts.match_at_key k0 d post ks Hk0 Hks Hd Hpost)).
  - destruct Hk0 as [Hne _]. by destruct k0.
Qed.

Lemma extractIssueKey_branch_witness :
  extractIssueKey "feature/PROJ-123-fix-login" = "PROJ-123"
  /\ extractIssueKey "topic/MY_APP_2-45" = "MY_APP_2-45".
Proof.
  split.
  - apply (extractIssueKey_branch "feature/" "PROJ" "123" "-fix-login" []).
    + intros c Hc. vm_compute in Hc.
      repeat (apply elem_of_cons in Hc as [-> |Hc]; [reflexivity|]).
      by apply not_elem_of_nil in Hc.
    + by apply RegexpFacts.all_in_check.
    + constructor.
    + by apply RegexpFacts.all_in_check.
    + reflexivity.
  - apply (extractIssueKey_branch "topic/" "MY" "45" "" ["APP"; "2"]).
    + intros c Hc. vm_compute in Hc.
      repeat (apply elem_of_cons in Hc as [-> |Hc]; [reflexivity|]).
      by apply not_elem_of_nil in Hc.
    + by apply RegexpFacts.all_in_check.
    + repeat (constructor; [by apply RegexpFacts.all_in_check|]). constructor.
    + by apply RegexpFacts.all_in_check.
    + exact I.
Defined.

(** X22.  Whatever [extractIssueKey] returns is empty or is a piece of the
    branch name of the shape [<key>-<digits>], where the key begins with
    an upper-case letter or a digit. *)
Theorem extractIssueKey_shape (s : string) :
  extractIssueKey s = ""
  \/ exists pre w d post,
       s = pre ++ extractIssueKey s ++ post
       /\ extractIssueKey s = w ++ "-" ++ d
       /\ all_in IssueKey.upperDigit (slice_to 1 w)
       /\ all_in Regexp.decimal d.
Proof.
  rewrite IssueKeyFacts.extractIssueKey_find.
  destruct (IssueKey.find s) as [key|] eqn:Hf; [|by left].
  right. apply IssueKeyFacts.find_sound in Hf as (pre & w & d & post & E & Hk & Hw & Hd).
  by exists pre, w, d, post.
Qed.

(** X23.  For a branch name without a hyphen, [OpenIssue] returns the error
    that no issue key was found, whatever the browser command would do. *)
Theorem OpenIssue_without_hyphen (openBrowser : string -> option error)
    (IssueURL : string -> string) (head : string) :
  Index head "-" = None ->
  OpenIssue openBrowser IssueURL head
  = Some (ErrorsNew "could not find issue key in current branch name").
Proof.
  intros Hno. unfold OpenIssue.
  assert (extractIssueKey head = "") as ->; [|done].
  rewrite IssueKeyFacts.extractIssueKey_find.
  destruct (IssueKey.find head) as [key|] eqn:Hf; [|done].
  apply IssueKeyFacts.find_sound in Hf as (pre & w & d & post & -> & -> & _ & _).
  apply (SplitFacts.Index_char_append_inv "-") in Hno as [_ Hno].
  apply (SplitFacts.Index_char_append_inv "-") in Hno as [Hno _].
  apply (SplitFacts.Index_char_append_inv "-") in Hno as [_ Hno].
  change ("-" ++ d) with (String "-" d) in Hno.
  rewrite StringFacts.Index_unfold, StringFacts.prefix_char_cons in Hno.
  by rewrite bool_decide_eq_true_2 in Hno.
Qed.

Lemma OpenIssue_without_hyphen_witness :
  OpenIssue (fun _ => None) (fun key => "view/" ++ key) "main"
  = Some (ErrorsNew "could not find issue key in current branch name").
Proof.
  apply (OpenIssue_without_hyphen (fun _ => None) (fun key => "view/" ++ key) "main").
  reflexivity.
Defined.


(** ** Opening a file or directory *)

Module LineFacts.
Import Regexp StringFacts SplitFacts RegexpFacts.

(** The pattern [^\d+(-\d+)?$] accepts exactly a number, or two numbers
    with a hyphen between them. *)
Lemma lineSpec_form (line : string) :
  lineSpec_MatchString line = true <-> line_form line.
Proof.
  unfold lineSpec_MatchString, line_form. split.
  - destruct (plus decimal _ "" line) as [[]|] eqn:Hm; [intros _|done].
    apply plus_sound in Hm as (a & r1 & Ha & -> & Hm).
    exists a. split; [done|].
    destruct (lit "-" _ r1) as [[]|] eqn:Hl.
    + right. apply lit_sound in Hl as (r2 & -> & Hl).
      apply plus_sound in Hl as (b & r3 & Hb & -> & Hl).
      destruct r3; [|done]. exists b. by rewrite append_empty_r.
    + left. destruct r1; [|done]. by rewrite append_empty_r.
  - intros (a & Ha & [-> |(b & Hb & ->)]).
    + rewrite <- (append_empty_r a) at 1.
      by erewrite (plus_greedy decimal _ "" a "" ()).
    + erewrite (plus_greedy decimal _ "" a ("-" ++ b) ()); [done | done | done |].
      rewrite lit_app. rewrite <- (append_empty_r b) at 1.
      by erewrite (plus_greedy decimal _ "" b "" ()).
Qed.

Lemma slice_from_root (root rest : string) :
  slice_from (String.length root) (root ++ rest) = rest.
Proof. apply slice_from_app. Qed.

Lemma HasPrefix_root (root rest : string) : HasPrefix (root ++ rest) root = true.
Proof. apply HasPrefix_spec. eauto. Qed.

End LineFacts.

(** X24.  [OpenObject] tests the path by its text only: every path that
    begins with the text of the root is taken as inside the repository,
    also one like [/repo2/x] for the root [/repo], and a path that does
    not begin with it is refused.  Without a line, the browser is given
    the rest of the path after the root without one leading slash. *)
Theorem OpenObject_path (openBrowser : string -> option error)
    (ObjectURL : string -> string -> bool -> string -> string)
    (root head : string) (isDirectory : bool) :
  (forall rest,
      OpenObject openBrowser ObjectURL root head (root ++ rest) isDirectory ""
      = openBrowser (ObjectURL head (TrimPrefix rest "/") isDirectory ""))
  /\ (forall absPath line,
        HasPrefix absPath root = false ->
        OpenObject openBrowser ObjectURL root head absPath isDirectory line
        = Some (ErrorsNew ("path " ++ absPath ++ " is out of repository " ++ root))).
Proof.
  split.
  - intros rest. unfold OpenObject.
    by rewrite LineFacts.HasPrefix_root, LineFacts.slice_from_root.
  - intros absPath line Hout. unfold OpenObject. by rewrite Hout.
Qed.

(** X25.  With a line, [OpenObject] on a path inside the root refuses a
    directory, whatever the line; for a file it opens the browser with the
    line exactly when the line is a number or two numbers with a hyphen
    between them, and refuses every other line. *)
Theorem OpenObject_line (openBrowser : string -> option error)
    (ObjectURL : string -> string -> bool -> string -> string)
    (root head rest line : string) :
  line <> "" ->
  OpenObject openBrowser ObjectURL root head (root ++ rest) true line
    = Some (ErrorsNew "line cannot be set for directory.")
  /\ (line_form line ->
        OpenObject openBrowser ObjectURL root head (root ++ rest) false line
        = openBrowser (ObjectURL head (TrimPrefix rest "/") false line))
  /\ (~ line_form line ->
        OpenObject openBrowser ObjectURL root head (root ++ rest) false line
        = Some (ErrorsNew ("line can be number or 'from-to' format. :" ++ line))).
Proof.
  intros Hline. apply String.eqb_neq in Hline.
  unfold OpenObject.
  rewrite LineFacts.HasPrefix_root, LineFacts.slice_from_root, Hline. cbn [negb].
  split; [done|]. split.
  - intros Hform%LineFacts.lineSpec_form. by rewrite Hform.
  - intros Hform. destruct (lineSpec_MatchString line) eqn:Hm; [|done].
    by apply LineFacts.lineSpec_form in Hm.
Qed.

Lemma OpenObject_line_witness :
  let openBrowser := fun url : string => @None error in
  let url := fun (head path : string) (dir : bool) (line : string) =>
               head ++ "/" ++ path ++ "#" ++ line in
  OpenObject openBrowser url "/work/app" "main" ("/work/app" ++ "/src/main.go") true "10-20"
    = Some (ErrorsNew "line cannot be set for directory.")
  /\ OpenObject openBrowser url "/work/app" "main" ("/work/app" ++ "/src/main.go") false
       "10-20"
     = openBrowser (url "main" "src/main.go" false "10-20").
Proof.
  intros openBrowser url.
  destruct (OpenObject_line openBrowser url "/work/app" "main" "/src/main.go" "10-20"
              ltac:(discriminate)) as (Hdir & Hfile & _).
  split; [exact Hdir|]. apply Hfile.
  exists "10". split; [by apply RegexpFacts.all_in_check|]. right.
  exists "20". split; [by apply RegexpFacts.all_in_check | reflexivity].
Defined.

(** ** Remote reference index: what the table holds *)

Module PlainFacts.
Import StringFacts SplitFacts.

Lemma list_ascii_slice_to (n : nat) (s : string) :
  list_ascii_of_string (slice_to n s) = take n (list_ascii_of_string s).
Proof. revert s. induction n as [|n IH]; intros [|c s]; simpl; by rewrite ?IH. Qed.

Lemma list_ascii_slice_from (n : nat) (s : string) :
  list_ascii_of_string (slice_from n s) = drop n (list_ascii_of_string s).
Proof. revert s. induction n as [|n IH]; intros [|c s]; simpl; by rewrite ?IH. Qed.

Lemma slice_to_free (c : ascii) (n : nat) (s : string) :
  Index s (String c "") = None -> Index (slice_to n s) (String c "") = None.
Proof.
  rewrite !Index_char_None, list_ascii_slice_to. intros H Hin. apply H.
  by eapply subseteq_take.
Qed.

Lemma slice_from_free (c : ascii) (n : nat) (s : string) :
  Index s (String c "") = None -> Index (slice_from n s) (String c "") = None.
Proof.
  rewrite !Index_char_None, list_ascii_slice_from. intros H Hin. apply H.
  by eapply subseteq_drop.
Qed.

Lemma Index_first (c : ascii) (s : string) (m : nat) :
  Index s (String c "") = Some m -> Index (slice_to m s) (String c "") = None.
Proof.
  revert m. induction s as [|c' s IH]; intros m.
  - by rewrite Index_empty.
  - rewrite Index_unfold, prefix_char_cons. case_bool_decide as Hc.
    + by intros [= <-].
    + destruct (Index s (String c "")) as [m'|] eqn:Hi; [|done].
      intros [= <-]. cbn [slice_to]. rewrite Index_unfold, prefix_char_cons.
      rewrite bool_decide_eq_false_2 by done. by rewrite (IH m').
Qed.

(** The pieces of a text cut at a byte do not hold that byte. *)
Lemma cuts_pieces_free (c : ascii) (n : nat) (s : string) :
  String.length s <= n ->
  Forall (fun p => Index p (String c "") = None) (cuts n s (String c "")).
Proof.
  revert s. induction n as [|n IH]; intros s Hn.
  - destruct s; [|simpl in Hn; lia]. by constructor.
  - cbn [cuts]. destruct (Index s (String c "")) as [m|] eqn:Hi.
    + constructor; [by apply Index_first|]. apply IH.
      pose proof (Index_bound s _ m Hi). rewrite slice_from_length. simpl in *. lia.
    + by constructor.
Qed.

(** The pieces of a text without a byte [d] do not hold [d] either. *)
Lemma cuts_pieces_keep_free (d : ascii) (n : nat) (s sep : string) :
  Index s (String d "") = None ->
  Forall (fun p => Index p (String d "") = None) (cuts n s sep).
Proof.
  revert s. induction n as [|n IH]; intros s Hs; cbn [cuts]; [by constructor|].
  destruct (Index s sep) as [m|]; [|by constructor].
  constructor; [by apply slice_to_free|]. apply IH. by apply slice_from_free.
Qed.

Lemma toRefToHash_loop_plain (remotes : list string) (m table : RefToHash) :
  Forall (fun v => Index v newline = None) remotes ->
  map_Forall (fun r h => plain r /\ plain h) m ->
  toRefToHash_loop remotes m = Ok table ->
  map_Forall (fun r h => plain r /\ plain h) table.
Proof.
  revert m. induction remotes as [|v rest IH]; intros m Hall Hm; cbn [toRefToHash_loop].
  - by intros [= <-].
  - apply Forall_cons in Hall as [Hv Hall].
    unfold toRefToHash_step.
    pose proof (cuts_pieces_free "009" (String.length v) v ltac:(lia)) as Htab.
    pose proof (cuts_pieces_keep_free "010" (String.length v) v tab Hv) as Hnl.
    change (cuts (String.length v) v (String "009" "")) with (Split v tab) in Htab.
    change (cuts (String.length v) v tab) with (Split v tab) in Hnl.
    destruct (Split v tab) as [|h [|r fields]]; [done | done |].
    cbn. apply IH; [done|].
    apply map_Forall_insert_2; [|done].
    apply Forall_cons in Htab as [Hh [Hr _]%Forall_cons].
    apply Forall_cons in Hnl as [Hh' [Hr' _]%Forall_cons].
    by repeat split.
Qed.

End PlainFacts.

(** X26.  Every reference name and every hash of a table that
    [toRefToHash] returns holds neither a tab nor a line feed. *)
Theorem toRefToHash_entries_plain (b : string) (table : RefToHash) (r h : string) :
  toRefToHash b = Ok table ->
  table !! r = Some h ->
  plain r /\ plain h.
Proof.
  unfold toRefToHash. intros Hloop Hl.
  eapply (PlainFacts.toRefToHash_loop_plain _ ∅ table); [| |exact Hloop|exact Hl].
  - apply (PlainFacts.cuts_pieces_free "010"). lia.
  - apply map_Forall_empty.
Qed.

Lemma toRefToHash_entries_plain_witness :
  plain "refs/heads/main" /\ plain "abc123".
Proof.
  apply (toRefToHash_entries_plain
    ("abc123" ++ tab ++ "refs/heads/main" ++ tab ++ "peeled" ++ newline
       ++ "fff000" ++ tab ++ "refs/tags/v1" ++ newline)
    {[ "refs/heads/main" := "abc123"; "refs/tags/v1" := "fff000" ]}).
  - vm_compute. reflexivity.
  - reflexivity.
Defined.
